(** * leaf-hub-spec-sync: the k8s worker pool (pkg/controller/k8s-worker-pool)

    A shallow embedding of [k8s_worker_pool.go] and [k8s_job.go]:

    - [readEnvVars] and [AddK8sWorkerPool] as pure functions;
    - [Start], [RunAsync] and [createUserWorker] as programs over the
      operations the Go code performs on shared data (mutex, lane map,
      channels, the logger, the impersonation manager), one goroutine per
      program, interleaved by a scheduler;
    - the properties of the dispatcher proved over every schedule. *)

From stdpp Require Import base option list gmap strings pretty.
From Stdlib Require Import ZArith Lia Ascii.

Local Open Scope Z_scope.

(** ** Go values *)

(** A Go [(T, error)] result; the error is carried by its message. *)
Inductive Result (A : Type) : Type :=
| Ok (a : A)
| Err (e : string).
Arguments Ok {A} a.
Arguments Err {A} e.

(** Go [int] on the 64-bit targets the component is built for. *)
Definition minInt : Z := - 2 ^ 63.
Definition maxInt : Z := 2 ^ 63 - 1.

Definition wrapInt (z : Z) : Z := (z + 2 ^ 63) mod 2 ^ 64 - 2 ^ 63.

(** ** strconv.Atoi *)

Module strconv.

Definition digit (c : ascii) : option Z :=
  let n := Z.of_N (N_of_ascii c) in
  if (48 <=? n) && (n <=? 57) then Some (n - 48) else None.

(** Base-10 digits, most significant first; [None] on any other byte. *)
Fixpoint digits (acc : Z) (s : string) : option Z :=
  match s with
  | EmptyString => Some acc
  | String c rest =>
      match digit c with
      | Some d => digits (acc * 10 + d) rest
      | None => None
      end
  end.

(** An optional sign, then at least one digit. *)
Definition signed (s : string) : option Z :=
  match s with
  | EmptyString => None
  | String c rest =>
      let '(neg, body) :=
        if Ascii.eqb c "-" then (true, rest)
        else if Ascii.eqb c "+" then (false, rest)
        else (false, s) in
      match body with
      | EmptyString => None
      | _ => (λ n, if neg : bool then - n else n) <$> digits 0 body
      end
  end.

(** [strconv.Atoi]: [ParseInt(s, 10, 0)] converted to [int], returned as
    the Go pair [(value, err)]. A string that is not a signed decimal is a
    syntax error (value 0); a value outside [int] is a range error (the
    value is clamped); in both cases [err != nil]. *)
Definition Atoi (s : string) : Z * option string :=
  match signed s with
  | None => (0, Some ("strconv.Atoi: parsing " +:+ s +:+ ": invalid syntax"))
  | Some v =>
      if (minInt <=? v) && (v <=? maxInt) then (v, None)
      else (if v <? 0 then minInt else maxInt,
            Some ("strconv.Atoi: parsing " +:+ s +:+ ": value out of range"))
  end.

End strconv.

(** ** Logger output *)

Inductive LogEntry : Type :=
| LogInfo (msg : string)
| LogError (err msg : string) (keysAndValues : list string).

(** ** readEnvVars *)

Definition envVarK8sClientsPoolSize : string := "K8S_CLIENTS_POOL_SIZE".
Definition defaultK8sClientsPoolSize : Z := 10.

(** [os.LookupEnv] is a lookup in the process environment. The function
    returns the pool size together with the lines it logs. *)
Definition readEnvVars (environ : gmap string string) : Z * list LogEntry :=
  match environ !! envVarK8sClientsPoolSize with
  | None =>
      (defaultK8sClientsPoolSize,
       [LogInfo ("env variable " +:+ envVarK8sClientsPoolSize
                 +:+ " not found, using default value "
                 +:+ pretty defaultK8sClientsPoolSize)])
  | Some k8sClientsPoolSize =>
      let '(value, err) := strconv.Atoi k8sClientsPoolSize in
      if bool_decide (err ≠ None) || (value <? 1) then
        (defaultK8sClientsPoolSize,
         [LogInfo ("env var " +:+ envVarK8sClientsPoolSize
                   +:+ " invalid value: " +:+ k8sClientsPoolSize
                   +:+ ", using default value "
                   +:+ pretty defaultK8sClientsPoolSize)])
      else (value, [])
  end.

(** ** Collaborators

    The packages the pool calls into ([rbac], the worker of
    [k8s_worker.go], the Kubernetes client) are not part of the files
    embedded here; what the pool needs from them is taken as a parameter. *)
Class Collaborators : Type := {
  (** [interface{}], the payload of a job *)
  Obj : Type;
  (** [K8sJobHandlerFunc] *)
  Handler : Type;
  (** [client.Client] *)
  Client : Type;
  (** [*rest.Config] *)
  Config : Type;
  (** [rbac.NoUserIdentity] *)
  NoUserIdentity : string;
  (** [ImpersonationManager.GetUserIdentity] *)
  GetUserIdentity : Obj → Result string;
  (** [ImpersonationManager.Impersonate]; the first argument is the number
      of calls made before this one, so the answer may change over time *)
  Impersonate : nat → string → Result Client;
  (** the error of [newK8sWorker] for a worker id and a config, if any *)
  newK8sWorkerError : Z → Config → option string;
}.

Section Model.
Context `{W : Collaborators}.

(** ** k8s_job.go *)

Record K8sJob : Type := {
  obj : Obj;
  handlerFunc : Handler;
}.

Definition NewK8sJob (obj : Obj) (handlerFunc : Handler) : K8sJob :=
  {| obj := obj; handlerFunc := handlerFunc |}.

(** ** Channels and workers *)

(** A [chan *K8sJob]: the buffered jobs (oldest first), the capacity given
    to [make], and whether [close] was called. Channel values are indices
    into the store [chans] below; a [nil] channel is [None]. *)
Record Chan : Type := {
  buf : list K8sJob;
  cap : Z;
  closed : bool;
}.

Inductive Session : Type :=
| DefaultSession (kubeConfig : Config)
| UserSession (k8sClient : Client).

(** Modelled from the spec: the worker of k8s_worker.go, which is not among
    the embedded files. "Worker: {id: int, session: backend-session, queue:
    reference to a Job queue}"; the logger's name is kept with it. *)
Record k8sWorker : Type := {
  logName : string;
  workerID : Z;
  session : Session;
  workerQueue : nat;
}.

Definition newK8sWorkerWithClient (logName : string) (workerID : Z)
    (k8sClient : Client) (jobsQueue : nat) : k8sWorker :=
  {| logName := logName; workerID := workerID;
     session := UserSession k8sClient; workerQueue := jobsQueue |}.

(** Modelled from the spec: [newK8sWorker] builds the session from the
    shared config ("a shared backend session (not identity-scoped)") and
    may fail ("cannot reach backend to build the default session"). *)
Definition newK8sWorker (logName : string) (workerID : Z)
    (kubeConfig : Config) (jobsQueue : nat) : Result k8sWorker :=
  match newK8sWorkerError workerID kubeConfig with
  | Some e => Err e
  | None =>
      Ok {| logName := logName; workerID := workerID;
            session := DefaultSession kubeConfig; workerQueue := jobsQueue |}
  end.

(** ** The pool *)

(** The fields of the Go struct. [ctx] is [None] while it is [nil];
    [jobsQueue] is a channel value; the logger and the impersonation manager
    are the collaborators above. *)
Record K8sWorkerPool : Type := {
  ctx : option nat;
  kubeConfig : Config;
  jobsQueue : nat;
  poolSize : Z;
  impersonationWorkersQueues : gmap string nat;
  impersonationWorkersLock : bool;
}.

(** ** Programs

    The operations a goroutine of this package performs, in continuation
    style. A goroutine is the rest of its program. *)

Inductive RetVal : Type :=
| RVoid
| RNil
| RError (err : string).

Inductive Label : Type :=
| Start_for (c : nat) (i : Z).

Inductive Prog : Type :=
| Ret (v : RetVal)
| Panic (msg : string)
| Goto (l : Label)
| CallGetUserIdentity (o : Obj) (k : Result string → Prog)
| LogErr (err msg : string) (keysAndValues : list string) (k : Prog)
| Send (q : option nat) (job : K8sJob) (k : Prog)
| Lock (k : Prog)
| Unlock (k : Prog)
| MapFound (key : string) (k : bool → Prog)
| MapGet (key : string) (k : option nat → Prog)
| MapInsert (key : string) (q : nat) (k : Prog)
| CallImpersonate (userIdentity : string) (k : Result Client → Prog)
| MakeChan (size : Z) (k : nat → Prog)
| StartWorkerPoolCtx (w : k8sWorker) (k : Prog)
| StartWorker (w : k8sWorker) (c : nat) (k : Prog)
| SetCtx (c : nat) (k : Prog)
| WaitDone (c : nat) (k : Prog)
| Close (q : nat) (k : Prog).

(** In the programs below [pool] is the receiver. The fields that are never
    assigned after construction ([kubeConfig], [jobsQueue], [poolSize]) are
    read from it directly; [ctx], the lane map and the mutex are reached
    through the operations, which act on the pool of the current state. *)

(** [createUserWorker]; [ret] receives the returned error ([None] is nil). *)
Definition createUserWorker (pool : K8sWorkerPool) (userIdentity : string)
    (ret : option string → Prog) : Prog :=
  CallImpersonate userIdentity (λ r,
    match r with
    | Err err => ret (Some ("failed to impersonate - " +:+ err))
    | Ok k8sClient =>
        MakeChan (poolSize pool) (λ workerQueue,
          let worker :=
            newK8sWorkerWithClient ("impersonation-" +:+ userIdentity)
              1 k8sClient workerQueue in
          StartWorkerPoolCtx worker
            (MapInsert userIdentity workerQueue (ret None)))
    end).

(** The end of [RunAsync]: read the lane's queue, unlock, send. *)
Definition RunAsync_push (userIdentity : string) (job : K8sJob) : Prog :=
  MapGet userIdentity (λ workerQueue,
    Unlock (Send workerQueue job (Ret RVoid))).

(** [RunAsync] from the lookup in the lane map, with the mutex held. *)
Definition RunAsync_locked (pool : K8sWorkerPool) (userIdentity : string)
    (job : K8sJob) : Prog :=
  MapFound userIdentity (λ found,
    if negb found then
      createUserWorker pool userIdentity (λ err,
        match err with
        | Some err =>
            LogErr err "failed to create user worker" ["user"; userIdentity]
              (Ret RVoid)
        | None => RunAsync_push userIdentity job
        end)
    else RunAsync_push userIdentity job).

Definition RunAsync (pool : K8sWorkerPool) (job : K8sJob) : Prog :=
  CallGetUserIdentity (obj job) (λ r,
    match r with
    | Err err => LogErr err "failed to get user identity from obj" [] (Ret RVoid)
    | Ok userIdentity =>
        if String.eqb userIdentity NoUserIdentity then
          Send (Some (jobsQueue pool)) job (Ret RVoid)
        else Lock (RunAsync_locked pool userIdentity job)
    end).

(** [Start] after its loop. *)
Definition Start_wait (pool : K8sWorkerPool) (c : nat) : Prog :=
  SetCtx c (WaitDone c (Close (jobsQueue pool) (Ret RNil))).

(** The head of the loop of [Start], with the loop variable [i]. *)
Definition Start_loop (pool : K8sWorkerPool) (c : nat) (i : Z) : Prog :=
  if i <=? poolSize pool then
    match newK8sWorker "" i (kubeConfig pool) (jobsQueue pool) with
    | Err err => Ret (RError ("failed to start k8s workers pool - " +:+ err))
    | Ok worker => StartWorker worker c (Goto (Start_for c (wrapInt (i + 1))))
    end
  else Start_wait pool c.

Definition code (pool : K8sWorkerPool) (l : Label) : Prog :=
  match l with
  | Start_for c i => Start_loop pool c i
  end.

Definition Start (pool : K8sWorkerPool) (c : nat) : Prog :=
  Goto (Start_for c 1).

(** ** States *)

(** A goroutine: the rest of its program, and whether it has locked
    [impersonationWorkersLock] and not unlocked it since ([sync.Mutex]
    records no owner; the flag is bookkeeping of the model). *)
Record Goroutine : Type := {
  prog : Prog;
  holds : bool;
}.

Record State : Type := {
  pool : K8sWorkerPool;
  (** the channels made so far *)
  chans : list Chan;
  (** every [worker.start(ctx)] so far, with the context it was given *)
  started : list (k8sWorker * option nat);
  (** what was written to the logger *)
  logged : list LogEntry;
  (** the identities [Impersonate] was called with *)
  impersonateCalls : list string;
  (** the keys assigned in [impersonationWorkersQueues], one per assignment *)
  lanesCreated : list string;
  (** the contexts whose [Done] channel is closed *)
  cancelled : list nat;
  goroutines : list Goroutine;
}.

Definition set_pool (f : K8sWorkerPool → K8sWorkerPool) (σ : State) : State :=
  {| pool := f (pool σ); chans := chans σ; started := started σ;
     logged := logged σ; impersonateCalls := impersonateCalls σ;
     lanesCreated := lanesCreated σ; cancelled := cancelled σ;
     goroutines := goroutines σ |}.

Definition set_chans (f : list Chan → list Chan) (σ : State) : State :=
  {| pool := pool σ; chans := f (chans σ); started := started σ;
     logged := logged σ; impersonateCalls := impersonateCalls σ;
     lanesCreated := lanesCreated σ; cancelled := cancelled σ;
     goroutines := goroutines σ |}.

Definition set_started
    (f : list (k8sWorker * option nat) → list (k8sWorker * option nat))
    (σ : State) : State :=
  {| pool := pool σ; chans := chans σ; started := f (started σ);
     logged := logged σ; impersonateCalls := impersonateCalls σ;
     lanesCreated := lanesCreated σ; cancelled := cancelled σ;
     goroutines := goroutines σ |}.

Definition set_logged (f : list LogEntry → list LogEntry) (σ : State) : State :=
  {| pool := pool σ; chans := chans σ; started := started σ;
     logged := f (logged σ); impersonateCalls := impersonateCalls σ;
     lanesCreated := lanesCreated σ; cancelled := cancelled σ;
     goroutines := goroutines σ |}.

Definition set_impersonateCalls (f : list string → list string)
    (σ : State) : State :=
  {| pool := pool σ; chans := chans σ; started := started σ;
     logged := logged σ; impersonateCalls := f (impersonateCalls σ);
     lanesCreated := lanesCreated σ; cancelled := cancelled σ;
     goroutines := goroutines σ |}.

Definition set_lanesCreated (f : list string → list string)
    (σ : State) : State :=
  {| pool := pool σ; chans := chans σ; started := started σ;
     logged := logged σ; impersonateCalls := impersonateCalls σ;
     lanesCreated := f (lanesCreated σ); cancelled := cancelled σ;
     goroutines := goroutines σ |}.

Definition set_cancelled (f : list nat → list nat) (σ : State) : State :=
  {| pool := pool σ; chans := chans σ; started := started σ;
     logged := logged σ; impersonateCalls := impersonateCalls σ;
     lanesCreated := lanesCreated σ; cancelled := f (cancelled σ);
     goroutines := goroutines σ |}.

Definition set_goroutines (f : list Goroutine → list Goroutine)
    (σ : State) : State :=
  {| pool := pool σ; chans := chans σ; started := started σ;
     logged := logged σ; impersonateCalls := impersonateCalls σ;
     lanesCreated := lanesCreated σ; cancelled := cancelled σ;
     goroutines := f (goroutines σ) |}.

Definition set_ctx (c : option nat) (p : K8sWorkerPool) : K8sWorkerPool :=
  {| ctx := c; kubeConfig := kubeConfig p; jobsQueue := jobsQueue p;
     poolSize := poolSize p;
     impersonationWorkersQueues := impersonationWorkersQueues p;
     impersonationWorkersLock := impersonationWorkersLock p |}.

Definition set_queues (f : gmap string nat → gmap string nat)
    (p : K8sWorkerPool) : K8sWorkerPool :=
  {| ctx := ctx p; kubeConfig := kubeConfig p; jobsQueue := jobsQueue p;
     poolSize := poolSize p;
     impersonationWorkersQueues := f (impersonationWorkersQueues p);
     impersonationWorkersLock := impersonationWorkersLock p |}.

Definition set_lock (b : bool) (p : K8sWorkerPool) : K8sWorkerPool :=
  {| ctx := ctx p; kubeConfig := kubeConfig p; jobsQueue := jobsQueue p;
     poolSize := poolSize p;
     impersonationWorkersQueues := impersonationWorkersQueues p;
     impersonationWorkersLock := b |}.

Definition push (job : K8sJob) (ch : Chan) : Chan :=
  {| buf := buf ch ++ [job]; cap := cap ch; closed := closed ch |}.

Definition pop (ch : Chan) : Chan :=
  {| buf := tail (buf ch); cap := cap ch; closed := closed ch |}.

Definition close (ch : Chan) : Chan :=
  {| buf := buf ch; cap := cap ch; closed := true |}.

(** ** One operation

    [exec_op σ h p] runs the first operation of [p] in state [σ] for a
    goroutine whose lock flag is [h]. [None]: the goroutine cannot move (it
    has returned or died, or the operation blocks in [σ]). *)
Definition exec_op (σ : State) (h : bool) (p : Prog)
    : option (State * bool * Prog) :=
  match p with
  | Ret _ | Panic _ => None
  | Goto l => Some (σ, h, code (pool σ) l)
  | CallGetUserIdentity o k => Some (σ, h, k (GetUserIdentity o))
  | LogErr err msg kv k =>
      Some (set_logged (λ l, l ++ [LogError err msg kv]) σ, h, k)
  | Send q job k =>
      (* a send on a nil channel blocks forever, a send on a closed channel
         panics, a send on a full channel blocks *)
      match q with
      | None => None
      | Some q =>
          match chans σ !! q with
          | None => None
          | Some ch =>
              if closed ch then Some (σ, h, Panic "send on closed channel")
              else if Z.of_nat (length (buf ch)) <? cap ch
              then Some (set_chans (λ cs, <[q := push job ch]> cs) σ, h, k)
              else None
          end
      end
  | Lock k =>
      if impersonationWorkersLock (pool σ) then None
      else Some (set_pool (set_lock true) σ, true, k)
  | Unlock k =>
      if impersonationWorkersLock (pool σ)
      then Some (set_pool (set_lock false) σ, false, k)
      else Some (σ, h, Panic "sync: unlock of unlocked mutex")
  | MapFound key k =>
      Some (σ, h,
            k (match impersonationWorkersQueues (pool σ) !! key with
               | Some _ => true
               | None => false
               end))
  | MapGet key k =>
      (* the zero value, a nil channel, for a missing key *)
      Some (σ, h, k (impersonationWorkersQueues (pool σ) !! key))
  | MapInsert key q k =>
      Some (set_lanesCreated (λ l, l ++ [key])
              (set_pool (set_queues (λ m, <[key := q]> m)) σ), h, k)
  | CallImpersonate userIdentity k =>
      Some (set_impersonateCalls (λ l, l ++ [userIdentity]) σ, h,
            k (Impersonate (length (impersonateCalls σ)) userIdentity))
  | MakeChan size k =>
      (* [make] panics for a negative size; sizes too large for the
         allocator are not distinguished *)
      if size <? 0 then Some (σ, h, Panic "makechan: size out of range")
      else Some (set_chans
                   (λ cs, cs ++ [{| buf := []; cap := size; closed := false |}])
                   σ,
                 h, k (length (chans σ)))
  | StartWorkerPoolCtx w k =>
      Some (set_started (λ l, l ++ [(w, ctx (pool σ))]) σ, h, k)
  | StartWorker w c k =>
      Some (set_started (λ l, l ++ [(w, Some c)]) σ, h, k)
  | SetCtx c k => Some (set_pool (set_ctx (Some c)) σ, h, k)
  | WaitDone c k =>
      if bool_decide (c ∈ cancelled σ) then Some (σ, h, k) else None
  | Close q k =>
      match chans σ !! q with
      | None => None
      | Some ch =>
          if closed ch then Some (σ, h, Panic "close of closed channel")
          else Some (set_chans (λ cs, <[q := close ch]> cs) σ, h, k)
      end
  end.

(** Goroutine [t] moves by one operation. *)
Definition step (t : nat) (σ : State) : option State :=
  g ← goroutines σ !! t;
  '(σ', h', p') ← exec_op σ (holds g) (prog g);
  Some (set_goroutines (λ gs, <[t := {| prog := p'; holds := h' |}]> gs) σ').

(** Up to [n] operations of goroutine [t], until it cannot move. *)
Fixpoint steps (n : nat) (t : nat) (σ : State) : State :=
  match n with
  | O => σ
  | S n' =>
      match step t σ with
      | Some σ' => steps n' t σ'
      | None => σ
      end
  end.

Definition go (p : Prog) (σ : State) : State :=
  set_goroutines (λ gs, gs ++ [{| prog := p; holds := false |}]) σ.

(** Modelled from the spec: a started worker "take[s] the next job from the
    bound queue"; the rest of the worker loop (k8s_worker.go) acts on the
    backend only. *)
Definition worker_receive (w : nat) (σ : State) : State :=
  match started σ !! w with
  | None => σ
  | Some (worker, _) =>
      match chans σ !! workerQueue worker with
      | None => σ
      | Some ch =>
          set_chans (λ cs, <[workerQueue worker := pop ch]> cs) σ
      end
  end.

(** What can happen next: a producer calls [RunAsync], the manager calls
    [Start], a goroutine performs its next operation, a worker takes a job,
    a context is cancelled. *)
Inductive Action : Type :=
| ASubmit (job : K8sJob)
| AStart (c : nat)
| AStep (t : nat)
| AReceive (w : nat)
| ACancel (c : nat).

Definition exec (a : Action) (σ : State) : State :=
  match a with
  | ASubmit job => go (RunAsync (pool σ) job) σ
  | AStart c => go (Start (pool σ) c) σ
  | AStep t => default σ (step t σ)
  | AReceive w => worker_receive w σ
  | ACancel c => set_cancelled (λ l, c :: l) σ
  end.

Definition is_Start (a : Action) : bool :=
  match a with
  | AStart _ => true
  | _ => false
  end.

(** A schedule, first action first. *)
Definition run (sched : list Action) (σ : State) : State :=
  foldl (λ σ a, exec a σ) σ sched.

(** ** AddK8sWorkerPool *)

(** The pool as [AddK8sWorkerPool] builds it, before any goroutine runs. *)
Definition new_pool (config : Config) (k8sWorkerPoolSize : Z)
    (lines : list LogEntry) : State :=
  {| pool := {| ctx := None;
                kubeConfig := config;
                jobsQueue := 0%nat;
                poolSize := k8sWorkerPoolSize;
                impersonationWorkersQueues := ∅;
                impersonationWorkersLock := false |};
     chans := [{| buf := []; cap := k8sWorkerPoolSize; closed := false |}];
     started := [];
     logged := lines;
     impersonateCalls := [];
     lanesCreated := [];
     cancelled := [];
     goroutines := [] |}.

(** [inClusterConfig] is the result of [rest.InClusterConfig()], [mgrAdd]
    the error of [mgr.Add], if any. *)
Definition AddK8sWorkerPool (inClusterConfig : Result Config)
    (environ : gmap string string) (mgrAdd : option string) : Result State :=
  match inClusterConfig with
  | Err err => Err ("failed to get in cluster kubeconfig - " +:+ err)
  | Ok config =>
      let '(k8sWorkerPoolSize, lines) := readEnvVars environ in
      let k8sWorkerPool := new_pool config k8sWorkerPoolSize lines in
      match mgrAdd with
      | Some err => Err ("failed to initialize k8s workers pool - " +:+ err)
      | None => Ok k8sWorkerPool
      end
  end.

(** ** The locking discipline of the programs

    [unlocked p]: [p] may be run by a goroutine that does not hold the
    mutex: it sends, logs, starts default workers, and touches the lane
    map only after [Lock]. [locked m p]: [p] may be run by the goroutine
    that holds the mutex while the lane map is [m]: it never sends, it reads
    the map as [m], and it assigns only keys that [m] lacks. *)
Inductive unlocked : Prog → Prop :=
| unlocked_Ret v : unlocked (Ret v)
| unlocked_Panic msg : unlocked (Panic msg)
| unlocked_Goto l : unlocked (Goto l)
| unlocked_GetUserIdentity o k :
    (∀ r, unlocked (k r)) → unlocked (CallGetUserIdentity o k)
| unlocked_LogErr err msg kv k : unlocked k → unlocked (LogErr err msg kv k)
| unlocked_Send q job k : unlocked k → unlocked (Send q job k)
| unlocked_Lock k : (∀ m, locked m k) → unlocked (Lock k)
| unlocked_StartWorker w c k : unlocked k → unlocked (StartWorker w c k)
| unlocked_SetCtx c k : unlocked k → unlocked (SetCtx c k)
| unlocked_WaitDone c k : unlocked k → unlocked (WaitDone c k)
| unlocked_Close q k : unlocked k → unlocked (Close q k)
with locked : gmap string nat → Prog → Prop :=
| locked_Ret m v : locked m (Ret v)
| locked_Panic m msg : locked m (Panic msg)
| locked_LogErr m err msg kv k : locked m k → locked m (LogErr err msg kv k)
| locked_Unlock m k : unlocked k → locked m (Unlock k)
| locked_MapFound m key k :
    locked m (k (match m !! key with Some _ => true | None => false end)) →
    locked m (MapFound key k)
| locked_MapGet m key k : locked m (k (m !! key)) → locked m (MapGet key k)
| locked_MapInsert m key q k :
    m !! key = None → locked (<[key := q]> m) k → locked m (MapInsert key q k)
| locked_Impersonate m userIdentity k :
    (∀ r, locked m (k r)) → locked m (CallImpersonate userIdentity k)
| locked_MakeChan m size k :
    (∀ q, locked m (k q)) → locked m (MakeChan size k)
| locked_StartWorkerPoolCtx m w k :
    locked m k → locked m (StartWorkerPoolCtx w k).


(** A goroutine follows the discipline for the lane map [m]. *)
Definition goroutine_ok (m : gmap string nat) (g : Goroutine) : Prop :=
  if holds g then locked m (prog g) else unlocked (prog g).

(** The invariant of the pool: every goroutine follows the discipline, at
    most one holds the mutex, the mutex is locked while one holds it, and
    no key of the lane map was assigned twice. *)
Record inv (σ : State) : Prop := {
  inv_goroutines : ∀ i g,
    goroutines σ !! i = Some g →
    goroutine_ok (impersonationWorkersQueues (pool σ)) g;
  inv_mutex : ∀ i j gi gj,
    goroutines σ !! i = Some gi → goroutines σ !! j = Some gj →
    holds gi = true → holds gj = true → i = j;
  inv_lock : ∀ i g,
    goroutines σ !! i = Some g → holds g = true →
    impersonationWorkersLock (pool σ) = true;
  inv_nodup : NoDup (lanesCreated σ);
  inv_created : ∀ key,
    key ∈ lanesCreated σ →
    is_Some (impersonationWorkersQueues (pool σ) !! key);
}.

(** The mutex is locked and the goroutine that locked it has returned;
    the others follow the discipline without holding it. *)
Definition leaked (σ : State) : Prop :=
  impersonationWorkersLock (pool σ) = true ∧
  ∀ i g, goroutines σ !! i = Some g →
    if holds g then ∃ v, prog g = Ret v else unlocked (prog g).

(** Programs made of the operations of [RunAsync] only: they neither assign
    [pool.ctx] nor start a worker with a context of their own. *)
Inductive lane_only : Prog → Prop :=
| lane_only_Ret v : lane_only (Ret v)
| lane_only_Panic msg : lane_only (Panic msg)
| lane_only_GetUserIdentity o k :
    (∀ r, lane_only (k r)) → lane_only (CallGetUserIdentity o k)
| lane_only_LogErr err msg kv k : lane_only k → lane_only (LogErr err msg kv k)
| lane_only_Send q job k : lane_only k → lane_only (Send q job k)
| lane_only_Lock k : lane_only k → lane_only (Lock k)
| lane_only_Unlock k : lane_only k → lane_only (Unlock k)
| lane_only_MapFound key k :
    (∀ b, lane_only (k b)) → lane_only (MapFound key k)
| lane_only_MapGet key k : (∀ q, lane_only (k q)) → lane_only (MapGet key k)
| lane_only_MapInsert key q k : lane_only k → lane_only (MapInsert key q k)
| lane_only_Impersonate userIdentity k :
    (∀ r, lane_only (k r)) → lane_only (CallImpersonate userIdentity k)
| lane_only_MakeChan size k :
    (∀ q, lane_only (k q)) → lane_only (MakeChan size k)
| lane_only_StartWorkerPoolCtx w k :
    lane_only k → lane_only (StartWorkerPoolCtx w k).

(** [Start] has not been called: [pool.ctx] is nil, every worker was started
    with a nil context, and only calls of [RunAsync] are running. *)
Definition not_started (σ : State) : Prop :=
  ctx (pool σ) = None ∧
  (∀ w c, (w, c) ∈ started σ → c = None) ∧
  (∀ i g, goroutines σ !! i = Some g → lane_only (prog g)).

(** ** Running one goroutine on its own *)

(** Up to [n] operations of a program, outside the list of goroutines. *)
Fixpoint exec_ops (n : nat) (σ : State) (h : bool) (p : Prog)
    : State * bool * Prog :=
  match n with
  | O => (σ, h, p)
  | S n' =>
      match exec_op σ h p with
      | Some (σ', h', p') => exec_ops n' σ' h' p'
      | None => (σ, h, p)
      end
  end.

(** The default worker [Start] builds in iteration [i]. *)
Definition default_worker (pool : K8sWorkerPool) (c : nat) (i : Z)
    : k8sWorker * option nat :=
  ({| logName := ""; workerID := i;
      session := DefaultSession (kubeConfig pool);
      workerQueue := jobsQueue pool |}, Some c).

End Model.

(** ** The caller: AddSpecSyncer (pkg/controller) *)

Section Controller.
Context `{W : Collaborators}.


(** The next operation of the program reads or writes
    [impersonationWorkersQueues]. *)
Definition touches_lanes (p : Prog) : bool :=
  match p with
  | MapFound _ _ | MapGet _ _ | MapInsert _ _ _ => true
  | _ => false
  end.

(** The goroutine has returned or died. *)
Definition finished (p : Prog) : bool :=
  match p with
  | Ret _ | Panic _ => true
  | _ => false
  end.

(** The state a first submission for [userIdentity] ends in. *)
Definition lane_added (σ : State) (poolSize : Z) (userIdentity : string)
    (k8sClient : Client) (job : K8sJob) : State :=
  set_chans
    (λ cs, cs ++ [{| buf := [job]; cap := poolSize; closed := false |}])
    (set_lanesCreated (λ l, l ++ [userIdentity])
       (set_pool (set_queues (λ m, <[userIdentity := length (chans σ)]> m))
          (set_started
             (λ l, l ++ [(newK8sWorkerWithClient
                            ("impersonation-" +:+ userIdentity) 1 k8sClient
                            (length (chans σ)),
                          ctx (pool σ))])
             (set_impersonateCalls (λ l, l ++ [userIdentity]) σ)))).

(** ** What the mutex holder has built so far

    Between [make] and the assignment in the lane map, [createUserWorker]
    owns a queue that no lane names yet: first without a worker, then with
    the worker it started. *)
Inductive Pending : Type :=
| NoPending
| Made (q : nat)
| Staffed (q : nat) (w : k8sWorker).

(** The workers started on queue [q]. *)
Definition lane_workers (q : nat) (σ : State) : list (k8sWorker * option nat) :=
  filter (λ wc, workerQueue wc.1 = q) (started σ).

(** Programs of a pool of size [size] with default queue [q0], told apart by
    who runs them. [runs_free nch p]: a goroutine without the mutex, when at
    least [nch] channels exist: it sends on existing channels only, closes
    only [q0], starts only default workers on [q0]. [runs_held m nch pend p]:
    the goroutine with the mutex, when the lane map is [m], exactly [nch]
    channels exist and it has built [pend]: it calls [Impersonate] and
    assigns lanes only for identities [m] lacks, makes queues of capacity
    [size] only, starts one worker per queue made, assigns exactly the
    queue it made and staffed, and unlocks or returns with nothing
    pending. *)
Inductive runs_free (size : Z) (q0 : nat) : nat → Prog → Prop :=
| runs_free_Ret nch v : runs_free size q0 nch (Ret v)
| runs_free_Panic nch msg : runs_free size q0 nch (Panic msg)
| runs_free_Goto nch l : runs_free size q0 nch (Goto l)
| runs_free_GetUserIdentity nch o k :
    (∀ r, runs_free size q0 nch (k r)) →
    runs_free size q0 nch (CallGetUserIdentity o k)
| runs_free_LogErr nch err msg kv k :
    runs_free size q0 nch k → runs_free size q0 nch (LogErr err msg kv k)
| runs_free_Send nch q job k :
    (q < nch)%nat → runs_free size q0 nch k →
    runs_free size q0 nch (Send (Some q) job k)
| runs_free_Lock nch k :
    (∀ m nch',
       (nch ≤ nch')%nat →
       (∀ key q, m !! key = Some q → (q < nch')%nat) →
       runs_held size q0 m nch' NoPending k) →
    runs_free size q0 nch (Lock k)
| runs_free_StartWorker nch w c k :
    workerQueue w = q0 →
    (∃ config, session w = DefaultSession config) →
    runs_free size q0 nch k →
    runs_free size q0 nch (StartWorker w c k)
| runs_free_SetCtx nch c k :
    runs_free size q0 nch k → runs_free size q0 nch (SetCtx c k)
| runs_free_WaitDone nch c k :
    runs_free size q0 nch k → runs_free size q0 nch (WaitDone c k)
| runs_free_Close nch k :
    runs_free size q0 nch k → runs_free size q0 nch (Close q0 k)
with runs_held (size : Z) (q0 : nat)
    : gmap string nat → nat → Pending → Prog → Prop :=
| runs_held_Ret m nch v : runs_held size q0 m nch NoPending (Ret v)
| runs_held_Panic m nch msg : runs_held size q0 m nch NoPending (Panic msg)
| runs_held_LogErr m nch pend err msg kv k :
    runs_held size q0 m nch pend k →
    runs_held size q0 m nch pend (LogErr err msg kv k)
| runs_held_Unlock m nch k :
    runs_free size q0 nch k → runs_held size q0 m nch NoPending (Unlock k)
| runs_held_MapFound m nch pend key k :
    runs_held size q0 m nch pend
      (k (match m !! key with Some _ => true | None => false end)) →
    runs_held size q0 m nch pend (MapFound key k)
| runs_held_MapGet m nch pend key k :
    runs_held size q0 m nch pend (k (m !! key)) →
    runs_held size q0 m nch pend (MapGet key k)
| runs_held_Impersonate m nch pend userIdentity k :
    m !! userIdentity = None →
    (∀ r, runs_held size q0 m nch pend (k r)) →
    runs_held size q0 m nch pend (CallImpersonate userIdentity k)
| runs_held_MakeChan m nch k :
    runs_held size q0 m (S nch) (Made nch) (k nch) →
    runs_held size q0 m nch NoPending (MakeChan size k)
| runs_held_StartWorkerPoolCtx m nch q name k8sClient k :
    runs_held size q0 m nch
      (Staffed q (newK8sWorkerWithClient name 1 k8sClient q)) k →
    runs_held size q0 m nch (Made q)
      (StartWorkerPoolCtx (newK8sWorkerWithClient name 1 k8sClient q) k)
| runs_held_MapInsert m nch q w key k :
    m !! key = None →
    logName w = "impersonation-" +:+ key →
    runs_held size q0 (<[key := q]> m) nch NoPending k →
    runs_held size q0 m nch (Staffed q w) (MapInsert key q k).

(** What [pend] says about the state. *)
Definition pending_ok (q0 : nat) (σ : State) (pend : Pending) : Prop :=
  match pend with
  | NoPending => True
  | Made q =>
      (q < length (chans σ))%nat ∧ q ≠ q0 ∧
      (∀ key, impersonationWorkersQueues (pool σ) !! key ≠ Some q) ∧
      lane_workers q σ = []
  | Staffed q w =>
      (q < length (chans σ))%nat ∧ q ≠ q0 ∧
      (∀ key, impersonationWorkersQueues (pool σ) !! key ≠ Some q) ∧
      (∃ name k8sClient, w = newK8sWorkerWithClient name 1 k8sClient q) ∧
      ∃ c, lane_workers q σ = [(w, c)]
  end.

(** The shape of the pool: [size] and [q0] never change; every channel has
    capacity [size], holds no more than that, and is open unless it is
    [q0]; every lane names a queue of its own that is not [q0] and has
    exactly one worker, worker 1 of that identity on a client of its own;
    every worker is a default worker on [q0] or a lane worker elsewhere;
    and every goroutine runs a program of the pool. *)
Record shape (size : Z) (q0 : nat) (σ : State) : Prop := {
  shape_size : poolSize (pool σ) = size;
  shape_queue : jobsQueue (pool σ) = q0;
  shape_default : (q0 < length (chans σ))%nat;
  shape_chans : ∀ q ch,
    chans σ !! q = Some ch →
    cap ch = size ∧ Z.of_nat (length (buf ch)) ≤ Z.max 0 size ∧
    (q ≠ q0 → closed ch = false);
  shape_lanes : ∀ key q,
    impersonationWorkersQueues (pool σ) !! key = Some q →
    (q < length (chans σ))%nat ∧ q ≠ q0 ∧
    ∃ k8sClient c,
      lane_workers q σ =
      [(newK8sWorkerWithClient ("impersonation-" +:+ key) 1 k8sClient q, c)];
  shape_inj : ∀ key1 key2 q,
    impersonationWorkersQueues (pool σ) !! key1 = Some q →
    impersonationWorkersQueues (pool σ) !! key2 = Some q →
    key1 = key2;
  shape_workers : ∀ w c,
    (w, c) ∈ started σ →
    (workerQueue w < length (chans σ))%nat ∧
    ((workerQueue w = q0 ∧ ∃ config, session w = DefaultSession config) ∨
     (workerQueue w ≠ q0 ∧ ∃ k8sClient, session w = UserSession k8sClient));
  shape_goroutines : ∃ pend,
    pending_ok q0 σ pend ∧
    ((∀ t g, goroutines σ !! t = Some g → holds g = false) →
     pend = NoPending) ∧
    ∀ t g, goroutines σ !! t = Some g →
      if holds g
      then runs_held size q0 (impersonationWorkersQueues (pool σ))
             (length (chans σ)) pend (prog g)
      else runs_free size q0 (length (chans σ)) (prog g);
}.

End Controller.

(** ** A concrete instance

    Payloads are their own identity annotation: ["?"] is a payload of the
    wrong shape, [""] carries no identity. The impersonation manager rejects
    ["carol"]. The config is the worker id whose construction fails (0 for
    none). *)
Module Demo.

Definition world : Collaborators :=
  {| Obj := string;
     Handler := unit;
     Client := string;
     Config := Z;
     NoUserIdentity := "";
     GetUserIdentity := λ o,
       if String.eqb o "?" then Err "unexpected object type" else Ok o;
     Impersonate := λ _ userIdentity,
       if String.eqb userIdentity "carol" then Err "forbidden"
       else Ok userIdentity;
     newK8sWorkerError := λ workerID config,
       if workerID =? config then Some "connection refused" else None |}.

Definition job (o : string) : @K8sJob world :=
  @NewK8sJob world o tt.

(** A pool of size 2 whose default workers can all be built. *)
Definition pool2 : @State world := @new_pool world 0 2 [].

(** A pool of size 3 whose second default worker cannot be built. *)
Definition pool3_bad : @State world := @new_pool world 2 3 [].

(** The pool [AddK8sWorkerPool] builds in an empty environment. *)
Definition pool10 : @State world :=
  @new_pool world 0 10 (readEnvVars ∅).2.

(** Goroutine [t] performs [n] operations. *)
Definition ops (n t : nat) : list (@Action world) := replicate n (AStep t).

(** A first job for alice, run to the end. *)
Definition alice_served : list (@Action world) :=
  ASubmit (job "alice") :: ops 10 0.

End Demo.

(** * Properties *)

Create HintDb discipline.
#[export] Hint Constructors unlocked locked lane_only : discipline.
Create HintDb running.
#[export] Hint Constructors runs_free runs_held : running.

Section Discipline.
Context `{W : Collaborators}.


Lemma RunAsync_push_locked m userIdentity job :
  locked m (RunAsync_push userIdentity job).
Proof. unfold RunAsync_push. auto 6 with discipline. Qed.

Lemma RunAsync_locked_locked m pool userIdentity job :
  locked m (RunAsync_locked pool userIdentity job).
Proof.
  unfold RunAsync_locked. constructor.
  destruct (m !! userIdentity) as [q|] eqn:Hq; simpl.
  - apply RunAsync_push_locked.
  - unfold createUserWorker. constructor. intros [k8sClient|err].
    + constructor. intros workerQueue. constructor. constructor; [done|].
      apply RunAsync_push_locked.
    + auto with discipline.
Qed.

Lemma RunAsync_unlocked pool job : unlocked (RunAsync pool job).
Proof.
  unfold RunAsync. constructor. intros [userIdentity|err].
  - destruct (String.eqb userIdentity NoUserIdentity).
    + auto with discipline.
    + constructor. intros m. apply RunAsync_locked_locked.
  - auto with discipline.
Qed.

Lemma code_unlocked pool l : unlocked (code pool l).
Proof.
  destruct l as [c i]. simpl. unfold Start_loop, Start_wait.
  destruct (i <=? poolSize pool); [|auto 6 with discipline].
  destruct (newK8sWorker _ _ _ _); auto with discipline.
Qed.

Lemma Start_unlocked pool c : unlocked (Start pool c).
Proof. constructor. Qed.

(** *** One operation preserves the discipline *)

Abbreviation lanes σ := (impersonationWorkersQueues (pool σ)).
Abbreviation mutex σ := (impersonationWorkersLock (pool σ)).

Lemma exec_op_goroutines σ h p σ' h' p' :
  exec_op σ h p = Some (σ', h', p') → goroutines σ' = goroutines σ.
Proof.
  destruct p; simpl; intros Hop; repeat case_match; simplify_eq; done.
Qed.

Lemma exec_op_unlocked σ p σ' h' p' :
  unlocked p →
  exec_op σ false p = Some (σ', h', p') →
  lanes σ' = lanes σ ∧ lanesCreated σ' = lanesCreated σ ∧
  impersonateCalls σ' = impersonateCalls σ ∧
  ((h' = false ∧ unlocked p' ∧ mutex σ' = mutex σ) ∨
   (h' = true ∧ mutex σ = false ∧ mutex σ' = true ∧ ∀ m, locked m p')).
Proof.
  intros Hp Hop.
  inversion Hp; subst; simpl in Hop; repeat case_match; simplify_eq;
    simpl; split_and?; try done;
    try (left; split_and?; auto using code_unlocked with discipline; done).
  right. split_and?; auto.
Qed.

Lemma exec_op_locked σ p σ' h' p' :
  locked (lanes σ) p →
  mutex σ = true →
  exec_op σ true p = Some (σ', h', p') →
  (h' = true ∧ mutex σ' = true ∧ locked (lanes σ') p' ∧
   ((lanes σ' = lanes σ ∧ lanesCreated σ' = lanesCreated σ) ∨
    (∃ key q, lanes σ !! key = None ∧ lanes σ' = <[key := q]> (lanes σ) ∧
              lanesCreated σ' = lanesCreated σ ++ [key]))) ∨
  (h' = false ∧ mutex σ' = false ∧ unlocked p' ∧
   lanes σ' = lanes σ ∧ lanesCreated σ' = lanesCreated σ).
Proof.
  intros Hp Hlock Hop.
  inversion Hp; subst; simpl in Hop; repeat case_match; simplify_eq; simpl;
    try (left; split_and?; auto with discipline; done).
  - right. split_and?; auto.
  - left. split_and?; auto. right. eauto.
Qed.

(** *** The invariant holds along every schedule *)

Lemma goroutine_ok_other σ σ' t g j gj :
  inv σ →
  goroutines σ !! t = Some g →
  goroutines σ !! j = Some gj →
  t ≠ j →
  holds g = true ∨ lanes σ' = lanes σ →
  goroutine_ok (lanes σ') gj.
Proof.
  intros Hinv Hg Hgj Hne Hcase.
  pose proof (inv_goroutines _ Hinv _ _ Hgj) as Hok.
  unfold goroutine_ok in *. destruct (holds gj) eqn:Hh; [|done].
  destruct Hcase as [Hhg| ->]; [|done].
  exfalso. apply Hne. by eapply (inv_mutex _ Hinv).
Qed.

Lemma inv_step σ t σ' : inv σ → step t σ = Some σ' → inv σ'.
Proof.
  intros Hinv. unfold step.
  destruct (goroutines σ !! t) as [g|] eqn:Hg; [simpl|done].
  destruct (exec_op σ (holds g) (prog g)) as [[[σ1 h1] p1]|] eqn:Hop;
    [simpl|done].
  intros [= <-].
  pose proof (exec_op_goroutines _ _ _ _ _ _ Hop) as Hgs.
  pose proof (inv_goroutines _ Hinv _ _ Hg) as Hok. unfold goroutine_ok in Hok.
  assert (Ht : (t < length (goroutines σ))%nat) by by eapply lookup_lt_Some.
  destruct (holds g) eqn:Hh.
  - (* the goroutine holds the mutex *)
    pose proof (inv_lock _ Hinv _ _ Hg Hh) as Hl.
    destruct (exec_op_locked _ _ _ _ _ Hok Hl Hop)
      as [(-> & Hl1 & Hp1 & Hmap)|(-> & Hl1 & Hp1 & Hm & Hc)].
    + split; simpl; rewrite ?Hgs.
      * intros i gi [(<- & <- & _)|(Hne & Hgi)]%list_lookup_insert_Some; [done|].
        apply (goroutine_ok_other σ σ1 t g i gi Hinv Hg Hgi Hne); auto.
      * intros i j gi gj [(<- & <- & _)|(Hi & Hgi)]%list_lookup_insert_Some
          [(<- & <- & _)|(Hj & Hgj)]%list_lookup_insert_Some; simpl;
          intros Hhi Hhj; try done.
        -- symmetry. by eapply (inv_mutex _ Hinv).
        -- by eapply (inv_mutex _ Hinv).
        -- by eapply (inv_mutex _ Hinv).
      * done.
      * destruct Hmap as [(_ & ->)|(key & q & Hnone & _ & ->)];
          [by apply Hinv|].
        apply NoDup_app. split_and?; [by apply Hinv| |apply NoDup_singleton].
        intros x Hx ->%list_elem_of_singleton.
        apply (inv_created _ Hinv) in Hx. rewrite Hnone in Hx.
        by destruct Hx.
      * intros key'.
        destruct Hmap as [(-> & ->)|(key & q & Hnone & -> & ->)];
          [by apply Hinv|].
        rewrite elem_of_app, list_elem_of_singleton, lookup_insert.
        case_decide; [by eauto|].
        intros [Hx| ->]; [by apply Hinv|done].
    + split; simpl; rewrite ?Hgs.
      * intros i gi [(<- & <- & _)|(Hne & Hgi)]%list_lookup_insert_Some; [done|].
        apply (goroutine_ok_other σ σ1 t g i gi Hinv Hg Hgi Hne); auto.
      * intros i j gi gj [(<- & <- & _)|(Hi & Hgi)]%list_lookup_insert_Some
          [(<- & <- & _)|(Hj & Hgj)]%list_lookup_insert_Some; simpl;
          intros Hhi Hhj; try done.
        by eapply (inv_mutex _ Hinv).
      * intros i gi [(<- & <- & _)|(Hne & Hgi)]%list_lookup_insert_Some;
          simpl; intros Hhi; [done|].
        exfalso. apply Hne. by eapply (inv_mutex _ Hinv).
      * rewrite Hc. by apply Hinv.
      * rewrite Hc, Hm. by apply Hinv.
  - (* the goroutine does not hold the mutex *)
    destruct (exec_op_unlocked _ _ _ _ _ Hok Hop)
      as (Hm & Hc & _ & [(-> & Hp1 & Hl1)|(-> & Hl0 & Hl1 & Hp1)]).
    + split; simpl; rewrite ?Hgs.
      * intros i gi [(<- & <- & _)|(Hne & Hgi)]%list_lookup_insert_Some; [done|].
        apply (goroutine_ok_other σ σ1 t g i gi Hinv Hg Hgi Hne); auto.
      * intros i j gi gj [(<- & <- & _)|(Hi & Hgi)]%list_lookup_insert_Some
          [(<- & <- & _)|(Hj & Hgj)]%list_lookup_insert_Some; simpl;
          intros Hhi Hhj; try done.
        by eapply (inv_mutex _ Hinv).
      * intros i gi [(<- & <- & _)|(Hne & Hgi)]%list_lookup_insert_Some;
          simpl; intros Hhi; [done|].
        rewrite Hl1. by eapply (inv_lock _ Hinv).
      * rewrite Hc. by apply Hinv.
      * rewrite Hc, Hm. by apply Hinv.
    + assert (Hnone : ∀ j gj, goroutines σ !! j = Some gj → holds gj = false).
      { intros j gj Hgj. destruct (holds gj) eqn:Hhj; [|done].
        pose proof (inv_lock _ Hinv _ _ Hgj Hhj). congruence. }
      split; simpl; rewrite ?Hgs.
      * intros i gi [(<- & <- & _)|(Hne & Hgi)]%list_lookup_insert_Some;
          [apply Hp1|].
        apply (goroutine_ok_other σ σ1 t g i gi Hinv Hg Hgi Hne); auto.
      * intros i j gi gj [(<- & <- & _)|(Hi & Hgi)]%list_lookup_insert_Some
          [(<- & <- & _)|(Hj & Hgj)]%list_lookup_insert_Some; simpl;
          intros Hhi Hhj; try done.
        -- apply Hnone in Hgj. congruence.
        -- apply Hnone in Hgi. congruence.
        -- apply Hnone in Hgi. congruence.
      * done.
      * rewrite Hc. by apply Hinv.
      * rewrite Hc, Hm. by apply Hinv.
Qed.

Lemma inv_go σ p : inv σ → unlocked p → inv (go p σ).
Proof.
  intros Hinv Hp.
  assert (Hnew : ∀ i g,
    (goroutines σ ++ [{| prog := p; holds := false |}]) !! i = Some g →
    goroutines σ !! i = Some g ∨ (holds g = false ∧ prog g = p)).
  { intros i g [?|(_ & (_ & <-)%list_lookup_singleton_Some)]%lookup_app_Some;
      auto. }
  split; simpl.
  - intros i g [Hg|(Hh & <-)]%Hnew; [by eapply Hinv|].
    unfold goroutine_ok. by rewrite Hh.
  - intros i j gi gj Hi Hj Hhi Hhj.
    destruct (Hnew _ _ Hi) as [Hgi|(? & _)]; [|congruence].
    destruct (Hnew _ _ Hj) as [Hgj|(? & _)]; [|congruence].
    by eapply (inv_mutex _ Hinv).
  - intros i g [Hg|(? & _)]%Hnew Hh; [|congruence].
    by eapply (inv_lock _ Hinv).
  - by apply Hinv.
  - by apply Hinv.
Qed.

Lemma inv_worker_receive σ w : inv σ → inv (worker_receive w σ).
Proof.
  intros Hinv. unfold worker_receive.
  repeat case_match; try done.
  destruct Hinv. by split.
Qed.

Lemma inv_exec σ a : inv σ → inv (exec a σ).
Proof.
  intros Hinv. destruct a as [job|c|t|w|c]; simpl.
  - apply inv_go; [done|]. apply RunAsync_unlocked.
  - apply inv_go; [done|]. apply Start_unlocked.
  - destruct (step t σ) as [σ'|] eqn:Hstep; simpl; [|done].
    by eapply inv_step.
  - by apply inv_worker_receive.
  - destruct Hinv. by split.
Qed.

Lemma inv_run sched σ : inv σ → inv (run sched σ).
Proof.
  unfold run. revert σ.
  induction sched as [|a sched IH]; intros σ Hinv; simpl; [done|].
  apply IH. by apply inv_exec.
Qed.

Lemma inv_new_pool config size lines : inv (new_pool config size lines).
Proof.
  split; simpl; try done.
  - apply NoDup_nil_2.
  - intros key Hkey. by apply elem_of_nil in Hkey.
Qed.

Lemma AddK8sWorkerPool_inv inClusterConfig environ mgrAdd σ0 :
  AddK8sWorkerPool inClusterConfig environ mgrAdd = Ok σ0 → inv σ0.
Proof.
  unfold AddK8sWorkerPool. destruct inClusterConfig as [config|]; [|done].
  destruct (readEnvVars environ) as [size lines].
  destruct mgrAdd; [done|]. intros [= <-]. apply inv_new_pool.
Qed.

End Discipline.

Section Sequential.
Context `{W : Collaborators}.

(** ** One goroutine on its own

    The operations of a goroutine do not look at the other goroutines, so a
    call can be followed outside the list of goroutines. *)

Lemma exec_op_set_goroutines f σ h p :
  exec_op (set_goroutines f σ) h p =
  (λ r, (set_goroutines f r.1.1, r.1.2, r.2)) <$> exec_op σ h p.
Proof. destruct p; simpl; repeat case_match; simplify_eq; done. Qed.

Lemma exec_ops_set_goroutines f n σ h p :
  exec_ops n (set_goroutines f σ) h p =
  (set_goroutines f (exec_ops n σ h p).1.1,
   (exec_ops n σ h p).1.2, (exec_ops n σ h p).2).
Proof.
  revert σ h p. induction n as [|n IH]; intros σ h p; simpl; [done|].
  rewrite exec_op_set_goroutines.
  destruct (exec_op σ h p) as [[[σ' h'] p']|]; simpl; [|done].
  apply IH.
Qed.

Lemma steps_exec_ops n t σ g :
  goroutines σ !! t = Some g →
  steps n t σ =
  set_goroutines
    (λ gs, <[t := {| prog := (exec_ops n σ (holds g) (prog g)).2;
                     holds := (exec_ops n σ (holds g) (prog g)).1.2 |}]> gs)
    (exec_ops n σ (holds g) (prog g)).1.1.
Proof.
  assert (Hid : ∀ σ g, goroutines σ !! t = Some g →
    σ = set_goroutines
          (λ gs, <[t := {| prog := prog g; holds := holds g |}]> gs) σ).
  { intros [] [] Hg. unfold set_goroutines. simpl in *. f_equal.
    symmetry. by apply list_insert_id. }
  revert σ g. induction n as [|n IH]; intros σ g Hg; simpl; [by apply Hid|].
  unfold step. rewrite Hg. simpl.
  destruct (exec_op σ (holds g) (prog g)) as [[[σ' h'] p']|] eqn:Hop; simpl;
    [|by apply Hid].
  pose proof (exec_op_goroutines _ _ _ _ _ _ Hop) as Hgs.
  erewrite IH; last first.
  { simpl. rewrite Hgs. apply list_lookup_insert_eq. by eapply lookup_lt_Some. }
  simpl. rewrite exec_ops_set_goroutines. simpl.
  unfold set_goroutines. simpl. f_equal. apply list_insert_insert_eq.
Qed.

Lemma exec_ops_goroutines n σ h p :
  goroutines (exec_ops n σ h p).1.1 = goroutines σ.
Proof.
  revert σ h p. induction n as [|n IH]; intros σ h p; simpl; [done|].
  destruct (exec_op σ h p) as [[[σ' h'] p']|] eqn:Hop; simpl; [|done].
  rewrite IH. by eapply exec_op_goroutines.
Qed.

Lemma exec_ops_add n m σ h p :
  exec_ops (n + m) σ h p =
  exec_ops m (exec_ops n σ h p).1.1 (exec_ops n σ h p).1.2 (exec_ops n σ h p).2.
Proof.
  revert σ h p. induction n as [|n IH]; intros σ h p; simpl; [done|].
  destruct (exec_op σ h p) as [[[σ' h'] p']|] eqn:Hop; simpl; [apply IH|].
  destruct m; simpl; [done|]. by rewrite Hop.
Qed.

Lemma exec_ops_blocked n σ h p :
  exec_op σ h p = None → exec_ops n σ h p = (σ, h, p).
Proof. intros Hop. destruct n; simpl; [done|]. by rewrite Hop. Qed.

(** Once [k] operations have led to a program that cannot move, more fuel
    changes nothing. *)
Lemma exec_ops_ge k n σ h p σ' h' p' :
  exec_ops k σ h p = (σ', h', p') →
  exec_op σ' h' p' = None →
  (k ≤ n)%nat →
  exec_ops n σ h p = (σ', h', p').
Proof.
  intros Hk Hstop Hle. replace n with (k + (n - k))%nat by lia.
  rewrite exec_ops_add, Hk. simpl. by apply exec_ops_blocked.
Qed.

(** The other goroutines are not touched. *)
Lemma steps_other n t σ g j :
  goroutines σ !! t = Some g → j ≠ t →
  goroutines (steps n t σ) !! j = goroutines σ !! j.
Proof.
  intros Hg Hne. rewrite (steps_exec_ops _ _ _ _ Hg). simpl.
  rewrite exec_ops_goroutines. by apply list_lookup_insert_ne.
Qed.

Lemma steps_self n t σ g :
  goroutines σ !! t = Some g →
  goroutines (steps n t σ) !! t =
  Some {| prog := (exec_ops n σ (holds g) (prog g)).2;
          holds := (exec_ops n σ (holds g) (prog g)).1.2 |}.
Proof.
  intros Hg. rewrite (steps_exec_ops _ _ _ _ Hg). simpl.
  rewrite exec_ops_goroutines. apply list_lookup_insert_eq.
  by eapply lookup_lt_Some.
Qed.

End Sequential.

Section Claims.
Context `{W : Collaborators}.

Abbreviation lanes σ := (impersonationWorkersQueues (pool σ)).
Abbreviation mutex σ := (impersonationWorkersLock (pool σ)).

(** ** RunAsync, path by path *)

Lemma RunAsync_ops_identity_error σ p job err :
  GetUserIdentity (obj job) = Err err →
  exec_ops 2 σ false (RunAsync p job) =
  (set_logged
     (λ l, l ++ [LogError err "failed to get user identity from obj" []]) σ,
   false, Ret RVoid).
Proof. intros Hid. simpl. by rewrite Hid. Qed.

(** C6: when [GetUserIdentity] fails, [RunAsync] logs the error and returns
    normally; no channel receives the job, and the pool (lane map, mutex,
    context), the started workers and the calls to the impersonation manager
    are as before. *)
Theorem RunAsync_identity_error_drops_job σ t p job err n :
  goroutines σ !! t = Some {| prog := RunAsync p job; holds := false |} →
  GetUserIdentity (obj job) = Err err →
  (2 ≤ n)%nat →
  let σ' := steps n t σ in
  goroutines σ' !! t = Some {| prog := Ret RVoid; holds := false |} ∧
  logged σ' =
    logged σ ++ [LogError err "failed to get user identity from obj" []] ∧
  chans σ' = chans σ ∧
  pool σ' = pool σ ∧
  started σ' = started σ ∧
  impersonateCalls σ' = impersonateCalls σ ∧
  lanesCreated σ' = lanesCreated σ ∧
  (∀ j, j ≠ t → goroutines σ' !! j = goroutines σ !! j).
Proof.
  intros Hg Hid Hn σ'.
  pose proof (RunAsync_ops_identity_error σ p job err Hid) as Hops.
  apply (exec_ops_ge 2 n) in Hops; [|done|done].
  split_and?; try (subst σ'; rewrite (steps_exec_ops _ _ _ _ Hg); simpl;
                   rewrite Hops; done).
  - subst σ'. rewrite (steps_self _ _ _ _ Hg). simpl. by rewrite Hops.
  - intros j Hj. by eapply steps_other.
Qed.

Lemma RunAsync_ops_no_identity_1 σ p job :
  GetUserIdentity (obj job) = Ok NoUserIdentity →
  exec_ops 1 σ false (RunAsync p job) =
  (σ, false, Send (Some (jobsQueue p)) job (Ret RVoid)).
Proof. intros Hid. simpl. by rewrite Hid, String.eqb_refl. Qed.




Lemma RunAsync_ops_lock σ p job userIdentity :
  GetUserIdentity (obj job) = Ok userIdentity →
  userIdentity ≠ NoUserIdentity →
  mutex σ = false →
  exec_ops 2 σ false (RunAsync p job) =
  (set_pool (set_lock true) σ, true, RunAsync_locked p userIdentity job).
Proof.
  intros Hid Hne%String.eqb_neq Hfree. simpl.
  rewrite Hid, Hne. simpl. by rewrite Hfree.
Qed.

Lemma RunAsync_locked_ops_error σ p job userIdentity err :
  lanes σ !! userIdentity = None →
  Impersonate (length (impersonateCalls σ)) userIdentity = Err err →
  exec_ops 3 σ true (RunAsync_locked p userIdentity job) =
  (set_logged
     (λ l, l ++ [LogError ("failed to impersonate - " +:+ err)
                   "failed to create user worker" ["user"; userIdentity]])
     (set_impersonateCalls (λ l, l ++ [userIdentity]) σ),
   true, Ret RVoid).
Proof. intros Hnone Himp. simpl. rewrite Hnone. simpl. by rewrite Himp. Qed.

Lemma RunAsync_locked_ops_create σ p job userIdentity k8sClient :
  lanes σ !! userIdentity = None →
  Impersonate (length (impersonateCalls σ)) userIdentity = Ok k8sClient →
  0 ≤ poolSize p →
  exec_ops 5 σ true (RunAsync_locked p userIdentity job) =
  (set_lanesCreated (λ l, l ++ [userIdentity])
     (set_pool (set_queues (λ m, <[userIdentity := length (chans σ)]> m))
        (set_started
           (λ l, l ++ [(newK8sWorkerWithClient
                          ("impersonation-" +:+ userIdentity) 1 k8sClient
                          (length (chans σ)),
                        ctx (pool σ))])
           (set_chans
              (λ cs, cs ++ [{| buf := []; cap := poolSize p; closed := false |}])
              (set_impersonateCalls (λ l, l ++ [userIdentity]) σ)))),
   true, RunAsync_push userIdentity job).
Proof.
  intros Hnone Himp Hsize. simpl. rewrite Hnone. simpl. rewrite Himp. simpl.
  by destruct (Z.ltb_spec (poolSize p) 0); [lia|].
Qed.

Lemma RunAsync_locked_ops_reuse σ p job userIdentity q :
  lanes σ !! userIdentity = Some q →
  mutex σ = true →
  exec_ops 3 σ true (RunAsync_locked p userIdentity job) =
  (set_pool (set_lock false) σ, false, Send (Some q) job (Ret RVoid)).
Proof. intros Hq Hlocked. simpl. rewrite Hq. simpl. by rewrite Hq, Hlocked. Qed.

Lemma RunAsync_ops_impersonate_error σ p job userIdentity err :
  GetUserIdentity (obj job) = Ok userIdentity →
  userIdentity ≠ NoUserIdentity →
  mutex σ = false →
  lanes σ !! userIdentity = None →
  Impersonate (length (impersonateCalls σ)) userIdentity = Err err →
  exec_ops 5 σ false (RunAsync p job) =
  (set_logged
     (λ l, l ++ [LogError ("failed to impersonate - " +:+ err)
                   "failed to create user worker" ["user"; userIdentity]])
     (set_impersonateCalls (λ l, l ++ [userIdentity])
        (set_pool (set_lock true) σ)),
   true, Ret RVoid).
Proof.
  intros Hid Hne Hfree Hnone Himp.
  change 5%nat with (2 + 3)%nat.
  rewrite exec_ops_add, (RunAsync_ops_lock _ _ _ _ Hid Hne Hfree). simpl fst; simpl snd.
  by apply RunAsync_locked_ops_error.
Qed.

(** C1 (what the code does): when there is no lane for the identity and
    [Impersonate] fails, [RunAsync] logs the error, sends the job nowhere
    and returns, and [impersonationWorkersLock] is still locked after the
    return: the error path has no [Unlock]. *)
Theorem RunAsync_impersonate_error_keeps_mutex σ t p job userIdentity err n :
  goroutines σ !! t = Some {| prog := RunAsync p job; holds := false |} →
  GetUserIdentity (obj job) = Ok userIdentity →
  userIdentity ≠ NoUserIdentity →
  mutex σ = false →
  lanes σ !! userIdentity = None →
  Impersonate (length (impersonateCalls σ)) userIdentity = Err err →
  (5 ≤ n)%nat →
  let σ' := steps n t σ in
  goroutines σ' !! t = Some {| prog := Ret RVoid; holds := true |} ∧
  mutex σ' = true ∧
  logged σ' =
    logged σ ++ [LogError ("failed to impersonate - " +:+ err)
                   "failed to create user worker" ["user"; userIdentity]] ∧
  chans σ' = chans σ ∧
  lanes σ' = lanes σ.
Proof.
  intros Hg Hid Hne Hfree Hnone Himp Hn σ'.
  pose proof (RunAsync_ops_impersonate_error σ p job userIdentity err
                Hid Hne Hfree Hnone Himp) as Hops.
  apply (exec_ops_ge 5 n) in Hops; [|done|done].
  subst σ'. rewrite (steps_self _ _ _ _ Hg).
  rewrite (steps_exec_ops _ _ _ _ Hg). simpl. by rewrite Hops.
Qed.

(** *** After the mutex has leaked *)

Lemma leaked_step σ t σ' :
  leaked σ → step t σ = Some σ' →
  leaked σ' ∧ lanes σ' = lanes σ ∧ impersonateCalls σ' = impersonateCalls σ.
Proof.
  intros [Hl Hgs]. unfold step.
  destruct (goroutines σ !! t) as [g|] eqn:Hg; [simpl|done].
  destruct (exec_op σ (holds g) (prog g)) as [[[σ1 h1] p1]|] eqn:Hop;
    [simpl|done].
  intros [= <-].
  pose proof (Hgs _ _ Hg) as Hok.
  destruct (holds g) eqn:Hh.
  { destruct Hok as [v Hv]. by rewrite Hv in Hop. }
  destruct (exec_op_unlocked _ _ _ _ _ Hok Hop)
    as (Hm & _ & Hc & [(-> & Hp1 & Hl1)|(_ & Hl0 & _)]); [|congruence].
  split_and?; try done.
  split; simpl; [congruence|].
  rewrite (exec_op_goroutines _ _ _ _ _ _ Hop).
  intros i gi [(<- & <- & _)|(Hne & Hgi)]%list_lookup_insert_Some; [done|].
  by eapply Hgs.
Qed.

Lemma leaked_exec σ a :
  leaked σ →
  leaked (exec a σ) ∧ lanes (exec a σ) = lanes σ ∧
  impersonateCalls (exec a σ) = impersonateCalls σ.
Proof.
  intros Hleak.
  assert (Hgo : ∀ p, unlocked p → leaked (go p σ)).
  { intros p Hp. destruct Hleak as [Hl Hgs]. split; [done|]. simpl.
    intros i g [?|(_ & (_ & <-)%list_lookup_singleton_Some)]%lookup_app_Some;
      [by eapply Hgs|done]. }
  destruct a as [job|c|t|w|c]; simpl.
  - split_and?; try done. apply Hgo, RunAsync_unlocked.
  - split_and?; try done. apply Hgo, Start_unlocked.
  - destruct (step t σ) as [σ'|] eqn:Hstep; simpl; [|done].
    by eapply leaked_step.
  - unfold worker_receive. by repeat case_match.
  - done.
Qed.

Lemma leaked_run sched σ :
  leaked σ →
  leaked (run sched σ) ∧ lanes (run sched σ) = lanes σ ∧
  impersonateCalls (run sched σ) = impersonateCalls σ.
Proof.
  unfold run. revert σ.
  induction sched as [|a sched IH]; intros σ Hleak; simpl; [done|].
  destruct (leaked_exec σ a Hleak) as (Hleak' & Hm & Hc).
  destruct (IH _ Hleak') as (? & ? & ?). split_and?; congruence.
Qed.

(** C3 (what the code does): when [Impersonate] rejects the identity the
    lane map is left as it was, with no entry for the identity; but the
    mutex stays locked for good, so in every continuation (whatever is
    submitted, started, received or cancelled afterwards) [Impersonate] is
    never called again and the identity never gets a lane. *)
Theorem impersonate_error_blocks_later_submits
    inClusterConfig environ mgrAdd σ0 sched0 t p job userIdentity err n :
  AddK8sWorkerPool inClusterConfig environ mgrAdd = Ok σ0 →
  let σ := run sched0 σ0 in
  goroutines σ !! t = Some {| prog := RunAsync p job; holds := false |} →
  GetUserIdentity (obj job) = Ok userIdentity →
  userIdentity ≠ NoUserIdentity →
  mutex σ = false →
  lanes σ !! userIdentity = None →
  Impersonate (length (impersonateCalls σ)) userIdentity = Err err →
  (5 ≤ n)%nat →
  let σ' := steps n t σ in
  lanes σ' = lanes σ ∧
  impersonateCalls σ' = impersonateCalls σ ++ [userIdentity] ∧
  ∀ sched,
    mutex (run sched σ') = true ∧
    impersonateCalls (run sched σ') = impersonateCalls σ' ∧
    lanes (run sched σ') !! userIdentity = None.
Proof.
  intros Hadd σ Hg Hid Hne Hfree Hnone Himp Hn σ'.
  assert (Hinv : inv σ) by by eapply inv_run, AddK8sWorkerPool_inv.
  pose proof (RunAsync_ops_impersonate_error σ p job userIdentity err
                Hid Hne Hfree Hnone Himp) as Hops.
  apply (exec_ops_ge 5 n) in Hops; [|done|done].
  assert (Hleak : leaked σ').
  { split.
    - subst σ'. rewrite (steps_exec_ops _ _ _ _ Hg). simpl. by rewrite Hops.
    - intros i g Hi. destruct (decide (i = t)) as [->|Hit].
      + subst σ'. rewrite (steps_self _ _ _ _ Hg) in Hi. simpl in Hi.
        rewrite Hops in Hi. simplify_eq. simpl. eauto.
      + subst σ'. rewrite (steps_other _ _ _ _ _ Hg Hit) in Hi.
        pose proof (inv_goroutines _ Hinv _ _ Hi) as Hok.
        unfold goroutine_ok in Hok.
        destruct (holds g) eqn:Hh; [|done].
        pose proof (inv_lock _ Hinv _ _ Hi Hh). congruence. }
  assert (Hlanes : lanes σ' = lanes σ).
  { subst σ'. rewrite (steps_exec_ops _ _ _ _ Hg). simpl. by rewrite Hops. }
  split_and?; [done| |].
  - subst σ'. rewrite (steps_exec_ops _ _ _ _ Hg). simpl. by rewrite Hops.
  - intros sched. destruct (leaked_run sched σ' Hleak) as ([Hl _] & Hm & Hc).
    split_and?; [done|done|]. by rewrite Hm, Hlanes.
Qed.

(** ** Every schedule *)

(** C4: along every schedule of a pool built by [AddK8sWorkerPool], a
    goroutine whose next operation is a send on a channel (so also one that
    is blocked on a full lane queue) does not hold
    [impersonationWorkersLock]: it has unlocked it before. *)
Theorem mutex_released_before_send
    inClusterConfig environ mgrAdd σ0 sched t g q job k :
  AddK8sWorkerPool inClusterConfig environ mgrAdd = Ok σ0 →
  goroutines (run sched σ0) !! t = Some g →
  prog g = Send q job k →
  holds g = false.
Proof.
  intros Hadd Hg Hsend.
  assert (Hinv : inv (run sched σ0)) by by eapply inv_run, AddK8sWorkerPool_inv.
  pose proof (inv_goroutines _ Hinv _ _ Hg) as Hok. unfold goroutine_ok in Hok.
  destruct (holds g); [|done].
  rewrite Hsend in Hok. inversion Hok.
Qed.

(** C2: along every schedule of a pool built by [AddK8sWorkerPool], however
    the calls of [RunAsync] interleave, no identity is assigned a lane more
    than once. A call that holds the mutex and finds the lane of its
    identity leaves the map as it is, calls [Impersonate] for nothing and
    goes on to send on the queue found in the map; a call that holds the
    mutex and finds no lane (and whose [Impersonate] succeeds) assigns
    one. *)
Theorem lane_created_at_most_once
    inClusterConfig environ mgrAdd σ0 sched :
  AddK8sWorkerPool inClusterConfig environ mgrAdd = Ok σ0 →
  let σ := run sched σ0 in
  (∀ userIdentity,
     (count_occ String.string_dec (lanesCreated σ) userIdentity ≤ 1)%nat) ∧
  (∀ t p job userIdentity q,
     goroutines σ !! t =
       Some {| prog := RunAsync_locked p userIdentity job; holds := true |} →
     lanes σ !! userIdentity = Some q →
     let σ' := steps 3 t σ in
     lanes σ' = lanes σ ∧
     lanesCreated σ' = lanesCreated σ ∧
     impersonateCalls σ' = impersonateCalls σ ∧
     chans σ' = chans σ ∧
     goroutines σ' !! t =
       Some {| prog := Send (Some q) job (Ret RVoid); holds := false |}) ∧
  (∀ t p job userIdentity k8sClient,
     goroutines σ !! t =
       Some {| prog := RunAsync_locked p userIdentity job; holds := true |} →
     lanes σ !! userIdentity = None →
     Impersonate (length (impersonateCalls σ)) userIdentity = Ok k8sClient →
     0 ≤ poolSize p →
     let σ' := steps 5 t σ in
     lanes σ' = <[userIdentity := length (chans σ)]> (lanes σ) ∧
     lanesCreated σ' = lanesCreated σ ++ [userIdentity]).
Proof.
  intros Hadd σ.
  assert (Hinv : inv σ) by by eapply inv_run, AddK8sWorkerPool_inv.
  split_and?.
  - apply NoDup_count_occ, NoDup_ListNoDup, (inv_nodup _ Hinv).
  - intros t p job userIdentity q Hg Hq σ'.
    pose proof (inv_lock _ Hinv _ _ Hg eq_refl) as Hl.
    pose proof (RunAsync_locked_ops_reuse σ p job userIdentity q Hq Hl) as Hops.
    subst σ'. rewrite (steps_self _ _ _ _ Hg).
    rewrite (steps_exec_ops _ _ _ _ Hg). simpl prog; simpl holds.
    by rewrite Hops.
  - intros t p job userIdentity k8sClient Hg Hnone Himp Hsize σ'.
    pose proof (RunAsync_locked_ops_create σ p job userIdentity k8sClient
                  Hnone Himp Hsize) as Hops.
    subst σ'. rewrite (steps_exec_ops _ _ _ _ Hg). simpl prog; simpl holds.
    by rewrite Hops.
Qed.

(** ** Before Start *)

Lemma RunAsync_lane_only p job : lane_only (RunAsync p job).
Proof.
  assert (Hpush : ∀ userIdentity, lane_only (RunAsync_push userIdentity job)).
  { intros. unfold RunAsync_push. auto 6 with discipline. }
  unfold RunAsync. constructor. intros [userIdentity|err];
    [|auto with discipline].
  destruct (String.eqb userIdentity NoUserIdentity); [auto with discipline|].
  constructor. unfold RunAsync_locked. constructor. intros [|]; simpl; [done|].
  unfold createUserWorker. constructor. intros [k8sClient|err];
    auto 6 with discipline.
Qed.

Lemma exec_op_lane_only σ h p σ' h' p' :
  lane_only p →
  exec_op σ h p = Some (σ', h', p') →
  lane_only p' ∧ ctx (pool σ') = ctx (pool σ) ∧
  (started σ' = started σ ∨
   ∃ w, started σ' = started σ ++ [(w, ctx (pool σ))]).
Proof.
  intros Hp Hop.
  inversion Hp; subst; simpl in Hop; repeat case_match; simplify_eq; simpl;
    split_and?; eauto with discipline.
Qed.

Lemma not_started_exec σ a :
  is_Start a = false → not_started σ → not_started (exec a σ).
Proof.
  intros Ha (Hctx & Hws & Hgs).
  destruct a as [job|c|t|w|c]; simpl; try done.
  - unfold not_started. simpl. split_and?; [done|done|].
    intros i g [?|(_ & (_ & <-)%list_lookup_singleton_Some)]%lookup_app_Some;
      [by eapply Hgs|apply RunAsync_lane_only].
  - destruct (step t σ) as [σ'|] eqn:Hstep; simpl; [|done].
    unfold step in Hstep.
    destruct (goroutines σ !! t) as [g|] eqn:Hg; [simpl in Hstep|done].
    destruct (exec_op σ (holds g) (prog g)) as [[[σ1 h1] p1]|] eqn:Hop;
      [simpl in Hstep|done].
    injection Hstep as <-.
    destruct (exec_op_lane_only _ _ _ _ _ _ (Hgs _ _ Hg) Hop)
      as (Hp1 & Hctx1 & Hst).
    unfold not_started. simpl. split_and?.
    + congruence.
    + intros w c. destruct Hst as [->|[w' ->]]; [apply Hws|].
      rewrite elem_of_app, list_elem_of_singleton.
      intros [?|[= _ ->]]; [by eapply Hws|done].
    + rewrite (exec_op_goroutines _ _ _ _ _ _ Hop).
      intros i gi [(<- & <- & _)|(Hne & Hgi)]%list_lookup_insert_Some;
        [done|by eapply Hgs].
  - unfold worker_receive. by repeat case_match.
Qed.

Lemma not_started_run sched σ :
  Forall (λ a, is_Start a = false) sched →
  not_started σ → not_started (run sched σ).
Proof.
  unfold run. intros Hsched. revert σ.
  induction Hsched as [|a sched Ha _ IH]; intros σ Hσ; simpl; [done|].
  by apply IH, not_started_exec.
Qed.

Lemma AddK8sWorkerPool_not_started inClusterConfig environ mgrAdd σ0 :
  AddK8sWorkerPool inClusterConfig environ mgrAdd = Ok σ0 → not_started σ0.
Proof.
  unfold AddK8sWorkerPool. destruct inClusterConfig as [config|]; [|done].
  destruct (readEnvVars environ) as [size lines].
  destruct mgrAdd; [done|]. intros [= <-].
  unfold not_started. simpl. split_and?; [done| |done].
  intros w c Hin. by apply elem_of_nil in Hin.
Qed.

Lemma RunAsync_ops_create σ p job userIdentity k8sClient :
  GetUserIdentity (obj job) = Ok userIdentity →
  userIdentity ≠ NoUserIdentity →
  mutex σ = false →
  lanes σ !! userIdentity = None →
  Impersonate (length (impersonateCalls σ)) userIdentity = Ok k8sClient →
  0 ≤ poolSize p →
  let r := exec_ops 7 σ false (RunAsync p job) in
  started r.1.1 =
    started σ ++ [(newK8sWorkerWithClient ("impersonation-" +:+ userIdentity)
                     1 k8sClient (length (chans σ)),
                   ctx (pool σ))] ∧
  lanes r.1.1 = <[userIdentity := length (chans σ)]> (lanes σ) ∧
  lanesCreated r.1.1 = lanesCreated σ ++ [userIdentity] ∧
  chans r.1.1 !! length (chans σ) =
    Some {| buf := []; cap := poolSize p; closed := false |}.
Proof.
  intros Hid Hne Hfree Hnone Himp Hsize.
  change 7%nat with (2 + 5)%nat.
  rewrite exec_ops_add, (RunAsync_ops_lock _ _ _ _ Hid Hne Hfree).
  simpl fst; simpl snd.
  rewrite (RunAsync_locked_ops_create _ p job userIdentity k8sClient)
    by done.
  simpl. split_and?; try done. by apply list_lookup_middle.
Qed.

(** C9: as long as [Start] has not been called on a pool built by
    [AddK8sWorkerPool], [pool.ctx] is nil and every started worker was given
    a nil context; in particular a call of [RunAsync] that creates a lane
    then starts the lane's worker with a nil context. *)
Theorem lane_before_Start_gets_nil_context
    inClusterConfig environ mgrAdd σ0 sched :
  AddK8sWorkerPool inClusterConfig environ mgrAdd = Ok σ0 →
  Forall (λ a, is_Start a = false) sched →
  let σ := run sched σ0 in
  ctx (pool σ) = None ∧
  (∀ w c, (w, c) ∈ started σ → c = None) ∧
  (∀ t p job userIdentity k8sClient,
     goroutines σ !! t = Some {| prog := RunAsync p job; holds := false |} →
     GetUserIdentity (obj job) = Ok userIdentity →
     userIdentity ≠ NoUserIdentity →
     mutex σ = false →
     lanes σ !! userIdentity = None →
     Impersonate (length (impersonateCalls σ)) userIdentity = Ok k8sClient →
     0 ≤ poolSize p →
     let σ' := steps 7 t σ in
     lanes σ' = <[userIdentity := length (chans σ)]> (lanes σ) ∧
     started σ' =
       started σ ++
       [(newK8sWorkerWithClient ("impersonation-" +:+ userIdentity)
           1 k8sClient (length (chans σ)),
         None)]).
Proof.
  intros Hadd Hsched σ.
  destruct (not_started_run sched σ0 Hsched
              (AddK8sWorkerPool_not_started _ _ _ _ Hadd)) as (Hctx & Hws & _).
  split_and?; [done|done|].
  intros t p job userIdentity k8sClient Hg Hid Hne Hfree Hnone Himp Hsize σ'.
  destruct (RunAsync_ops_create σ p job userIdentity k8sClient
              Hid Hne Hfree Hnone Himp Hsize) as (Hst & Hm & _).
  subst σ'. rewrite (steps_exec_ops _ _ _ _ Hg). simpl prog; simpl holds.
  simpl. fold σ in Hctx. rewrite Hctx in Hst. done.
Qed.

(** ** Start *)

Lemma wrapInt_small z : minInt ≤ z ≤ maxInt → wrapInt z = z.
Proof.
  unfold wrapInt, minInt, maxInt. intros Hz.
  rewrite Z.mod_small; lia.
Qed.

(** [k] iterations of the loop, from [i], when the workers [i .. i+k-1] can
    be built. *)
Lemma Start_loop_ops k σ h c i :
  1 ≤ i →
  i + Z.of_nat k ≤ poolSize (pool σ) + 1 →
  poolSize (pool σ) < maxInt →
  (∀ j, i ≤ j < i + Z.of_nat k →
        newK8sWorkerError j (kubeConfig (pool σ)) = None) →
  exec_ops (2 * k) σ h (Start_loop (pool σ) c i) =
  (set_started
     (λ l, l ++ (default_worker (pool σ) c <$> seqZ i (Z.of_nat k))) σ,
   h, Start_loop (pool σ) c (i + Z.of_nat k)).
Proof.
  revert σ i. induction k as [|k IH]; intros σ i Hi Hk Hmax Hok.
  - simpl. rewrite Z.add_0_r. f_equal. f_equal.
    destruct σ. unfold set_started. simpl. by rewrite app_nil_r.
  - replace (2 * S k)%nat with (2 + 2 * k)%nat by lia.
    rewrite exec_ops_add.
    assert (Hstep : exec_ops 2 σ h (Start_loop (pool σ) c i) =
      (set_started (λ l, l ++ [default_worker (pool σ) c i]) σ, h,
       Start_loop (pool σ) c (i + 1))).
    { unfold Start_loop at 1, newK8sWorker.
      destruct (Z.leb_spec i (poolSize (pool σ))); [|lia].
      rewrite Hok by lia. simpl.
      rewrite wrapInt_small; [done|]. unfold minInt, maxInt in *. lia. }
    rewrite Hstep. simpl fst; simpl snd.
    rewrite (IH (set_started _ σ) (i + 1)); simpl; try lia.
    + rewrite (seqZ_cons i (Z.of_nat (S k))) by lia.
      replace (Z.pred (Z.of_nat (S k))) with (Z.of_nat k) by lia.
      replace (i + 1 + Z.of_nat k) with (i + Z.of_nat (S k)) by lia.
      f_equal. f_equal. unfold set_started. simpl. f_equal.
      rewrite <-app_assoc. simpl. by replace (Z.succ i) with (i + 1) by lia.
    + intros j Hj. apply Hok. lia.
Qed.

Lemma Start_ops_spawned σ h p c :
  0 ≤ poolSize (pool σ) < maxInt →
  (∀ i, 1 ≤ i ≤ poolSize (pool σ) →
        newK8sWorkerError i (kubeConfig (pool σ)) = None) →
  exec_ops (2 * Z.to_nat (poolSize (pool σ)) + 2) σ h (Start p c) =
  (set_pool (set_ctx (Some c))
     (set_started
        (λ l, l ++ (default_worker (pool σ) c <$> seqZ 1 (poolSize (pool σ))))
        σ),
   h, WaitDone c (Close (jobsQueue (pool σ)) (Ret RNil))).
Proof.
  intros Hsize Hok.
  replace (2 * Z.to_nat (poolSize (pool σ)) + 2)%nat
    with (1 + (2 * Z.to_nat (poolSize (pool σ)) + 1))%nat by lia.
  rewrite exec_ops_add. simpl exec_ops at 2 3 4. simpl fst; simpl snd.
  rewrite exec_ops_add, Start_loop_ops; [|lia|lia|lia|intros; apply Hok; lia].
  simpl fst; simpl snd.
  replace (1 + Z.of_nat (Z.to_nat (poolSize (pool σ))))
    with (poolSize (pool σ) + 1) by lia.
  rewrite Z2Nat.id by lia.
  unfold Start_loop.
  destruct (Z.leb_spec (poolSize (pool σ) + 1) (poolSize (pool σ))); [lia|].
  done.
Qed.

Lemma Start_ops_failed σ h p c i err :
  1 ≤ i ≤ poolSize (pool σ) →
  poolSize (pool σ) < maxInt →
  (∀ j, 1 ≤ j < i → newK8sWorkerError j (kubeConfig (pool σ)) = None) →
  newK8sWorkerError i (kubeConfig (pool σ)) = Some err →
  exec_ops (2 * Z.to_nat i - 1) σ h (Start p c) =
  (set_started
     (λ l, l ++ (default_worker (pool σ) c <$> seqZ 1 (i - 1))) σ,
   h, Ret (RError ("failed to start k8s workers pool - " +:+ err))).
Proof.
  intros Hi Hmax Hok Herr.
  replace (2 * Z.to_nat i - 1)%nat
    with (1 + 2 * Z.to_nat (i - 1))%nat by lia.
  rewrite exec_ops_add. simpl exec_ops at 2 3 4. simpl fst; simpl snd.
  rewrite Start_loop_ops; [|lia|lia|lia|intros; apply Hok; lia].
  rewrite Z2Nat.id by lia.
  replace (1 + (i - 1)) with i by lia.
  unfold Start_loop, newK8sWorker.
  destruct (Z.leb_spec i (poolSize (pool σ))); [|lia].
  by rewrite Herr.
Qed.

Lemma Start_wait_ops σ h c q ch :
  c ∈ cancelled σ →
  chans σ !! q = Some ch →
  closed ch = false →
  exec_ops 2 σ h (WaitDone c (Close q (Ret RNil))) =
  (set_chans (λ cs, <[q := close ch]> cs) σ, h, Ret RNil).
Proof.
  intros Hc Hch Hopen. simpl.
  rewrite bool_decide_eq_true_2 by done. simpl. by rewrite Hch, Hopen.
Qed.

(** What [Start] leaves behind when the [i]-th default worker cannot be
    built. *)
Lemma Start_steps_failed σ t p c i err n :
  goroutines σ !! t = Some {| prog := Start p c; holds := false |} →
  1 ≤ i ≤ poolSize (pool σ) →
  poolSize (pool σ) < maxInt →
  (∀ j, 1 ≤ j < i → newK8sWorkerError j (kubeConfig (pool σ)) = None) →
  newK8sWorkerError i (kubeConfig (pool σ)) = Some err →
  (2 * Z.to_nat i - 1 ≤ n)%nat →
  let σ' := steps n t σ in
  goroutines σ' !! t =
    Some {| prog := Ret (RError ("failed to start k8s workers pool - " +:+ err));
            holds := false |} ∧
  chans σ' = chans σ ∧
  pool σ' = pool σ ∧
  started σ' =
    started σ ++ (default_worker (pool σ) c <$> seqZ 1 (i - 1)).
Proof.
  intros Hg Hi Hmax Hok Herr Hn σ'.
  pose proof (Start_ops_failed σ false p c i err Hi Hmax Hok Herr) as Hops.
  apply (exec_ops_ge _ n) in Hops; [|done|done].
  subst σ'. rewrite (steps_self _ _ _ _ Hg).
  rewrite (steps_exec_ops _ _ _ _ Hg). simpl prog; simpl holds.
  by rewrite Hops.
Qed.

(** C8: [Start] starts exactly [poolSize] default workers, numbered from 1,
    each with the session of the shared kube config, the default queue and
    the context of the call, then assigns [pool.ctx] and waits, leaving the
    queue open, for as long as the context is not cancelled; once it is
    cancelled, [Start] closes the default queue and returns nil. When a
    default worker cannot be built, [Start] returns the wrapped error. *)
Theorem Start_spawns_waits_closes σ t p c :
  goroutines σ !! t = Some {| prog := Start p c; holds := false |} →
  (0 ≤ poolSize (pool σ) < maxInt →
   (∀ i, 1 ≤ i ≤ poolSize (pool σ) →
         newK8sWorkerError i (kubeConfig (pool σ)) = None) →
   c ∉ cancelled σ →
   ∀ n, (2 * Z.to_nat (poolSize (pool σ)) + 2 ≤ n)%nat →
   let σ1 := steps n t σ in
   started σ1 =
     started σ ++ (default_worker (pool σ) c <$> seqZ 1 (poolSize (pool σ))) ∧
   Z.of_nat (length (started σ1)) =
     Z.of_nat (length (started σ)) + poolSize (pool σ) ∧
   ctx (pool σ1) = Some c ∧
   chans σ1 = chans σ ∧
   goroutines σ1 !! t =
     Some {| prog := WaitDone c (Close (jobsQueue (pool σ)) (Ret RNil));
             holds := false |} ∧
   step t σ1 = None) ∧
  (∀ σ2 q ch m,
     goroutines σ2 !! t =
       Some {| prog := WaitDone c (Close q (Ret RNil)); holds := false |} →
     c ∈ cancelled σ2 →
     chans σ2 !! q = Some ch →
     closed ch = false →
     (2 ≤ m)%nat →
     let σ3 := steps m t σ2 in
     chans σ3 = <[q := close ch]> (chans σ2) ∧
     goroutines σ3 !! t = Some {| prog := Ret RNil; holds := false |}) ∧
  (∀ i err n,
     1 ≤ i ≤ poolSize (pool σ) →
     poolSize (pool σ) < maxInt →
     (∀ j, 1 ≤ j < i → newK8sWorkerError j (kubeConfig (pool σ)) = None) →
     newK8sWorkerError i (kubeConfig (pool σ)) = Some err →
     (2 * Z.to_nat i - 1 ≤ n)%nat →
     goroutines (steps n t σ) !! t =
       Some {| prog := Ret (RError ("failed to start k8s workers pool - "
                                    +:+ err));
               holds := false |}).
Proof.
  intros Hg. split_and?.
  - intros Hsize Hok Hc n Hn σ1.
    pose proof (Start_ops_spawned σ false p c Hsize Hok) as Hops.
    apply (exec_ops_ge _ n) in Hops; [|simpl; by rewrite bool_decide_eq_false_2|done].
    assert (Hself : goroutines σ1 !! t =
      Some {| prog := WaitDone c (Close (jobsQueue (pool σ)) (Ret RNil));
              holds := false |}).
    { subst σ1. rewrite (steps_self _ _ _ _ Hg). simpl prog; simpl holds.
      by rewrite Hops. }
    assert (Hst : started σ1 =
      started σ ++ (default_worker (pool σ) c <$> seqZ 1 (poolSize (pool σ)))).
    { subst σ1. rewrite (steps_exec_ops _ _ _ _ Hg). simpl prog; simpl holds.
      by rewrite Hops. }
    split_and?; try done.
    + rewrite Hst, length_app, length_fmap, length_seqZ. lia.
    + subst σ1. rewrite (steps_exec_ops _ _ _ _ Hg). simpl prog; simpl holds.
      by rewrite Hops.
    + subst σ1. rewrite (steps_exec_ops _ _ _ _ Hg). simpl prog; simpl holds.
      by rewrite Hops.
    + unfold step. rewrite Hself. simpl.
      subst σ1. rewrite (steps_exec_ops _ _ _ _ Hg). simpl prog; simpl holds.
      rewrite Hops. simpl. by rewrite bool_decide_eq_false_2.
  - intros σ2 q ch m Hg2 Hc Hch Hopen Hm σ3.
    pose proof (Start_wait_ops σ2 false c q ch Hc Hch Hopen) as Hops.
    apply (exec_ops_ge _ m) in Hops; [|done|done].
    subst σ3. rewrite (steps_self _ _ _ _ Hg2).
    rewrite (steps_exec_ops _ _ _ _ Hg2). simpl prog; simpl holds.
    by rewrite Hops.
  - intros i err n Hi Hmax Hok Herr Hn.
    by destruct (Start_steps_failed σ t p c i err n Hg Hi Hmax Hok Herr Hn).
Qed.

(** C10: when the [i]-th default worker cannot be built, [Start] returns the
    error having closed no channel (the default queue is as it was),
    assigned nothing in the pool ([pool.ctx] is as before the call) and
    stopped none of the [i - 1] default workers it had already started. *)
Theorem Start_error_leaves_workers_running σ t p c i err n :
  goroutines σ !! t = Some {| prog := Start p c; holds := false |} →
  1 ≤ i ≤ poolSize (pool σ) →
  poolSize (pool σ) < maxInt →
  (∀ j, 1 ≤ j < i → newK8sWorkerError j (kubeConfig (pool σ)) = None) →
  newK8sWorkerError i (kubeConfig (pool σ)) = Some err →
  (2 * Z.to_nat i - 1 ≤ n)%nat →
  let σ' := steps n t σ in
  (∃ e, goroutines σ' !! t = Some {| prog := Ret (RError e); holds := false |}) ∧
  chans σ' = chans σ ∧
  ctx (pool σ') = ctx (pool σ) ∧
  started σ' =
    started σ ++ (default_worker (pool σ) c <$> seqZ 1 (i - 1)) ∧
  Z.of_nat (length (started σ')) = Z.of_nat (length (started σ)) + (i - 1) ∧
  cancelled σ' = cancelled σ.
Proof.
  intros Hg Hi Hmax Hok Herr Hn σ'.
  destruct (Start_steps_failed σ t p c i err n Hg Hi Hmax Hok Herr Hn)
    as (Hret & Hchans & Hpool & Hst).
  fold σ' in Hret, Hchans, Hpool, Hst.
  split_and?; eauto.
  - by rewrite Hpool.
  - rewrite Hst, length_app, length_fmap, length_seqZ. lia.
  - pose proof (Start_ops_failed σ false p c i err Hi Hmax Hok Herr) as Hops.
    apply (exec_ops_ge _ n) in Hops; [|done|done].
    subst σ'. rewrite (steps_exec_ops _ _ _ _ Hg). simpl prog; simpl holds.
    by rewrite Hops.
Qed.

End Claims.

(** * Configuration: readEnvVars *)

Module strconv_facts.
Import strconv.

Lemma digit_pretty_N_char x :
  (x < 10)%N → digit (pretty_N_char x) = Some (Z.of_N x).
Proof.
  intros Hx.
  assert (x = 0 ∨ x = 1 ∨ x = 2 ∨ x = 3 ∨ x = 4 ∨ x = 5 ∨ x = 6 ∨ x = 7
          ∨ x = 8 ∨ x = 9)%N as Hcases by lia.
  repeat destruct Hcases as [->|Hcases]; try subst x; reflexivity.
Qed.

(** Reading back what [pretty_N_go] has put in front of [s]. *)
Lemma digits_pretty_N_go x s :
  ∃ n : nat, ∀ acc,
    digits acc (pretty_N_go x s) = digits (acc * 10 ^ Z.of_nat n + Z.of_N x) s.
Proof.
  revert s. induction (N.lt_wf_0 x) as [x _ IH]; intros s.
  destruct (decide (x = 0)%N) as [->|Hx].
  - exists 0%nat. intros acc. rewrite pretty_N_go_0. f_equal. simpl. lia.
  - rewrite pretty_N_go_step by lia.
    destruct (IH (x `div` 10)%N (N.div_lt x 10 ltac:(lia) eq_refl)
                (String (pretty_N_char (x `mod` 10)) s)) as [n Hn].
    exists (S n). intros acc. rewrite Hn. simpl digits.
    rewrite digit_pretty_N_char by (apply N.mod_lt; lia).
    f_equal. rewrite Nat2Z.inj_succ, Z.pow_succ_r by lia.
    rewrite N2Z.inj_div, N2Z.inj_mod.
    pose proof (Z.div_mod (Z.of_N x) 10). lia.
Qed.

Lemma digits_pretty_positive (p : positive) :
  digits 0 (pretty p) = Some (Zpos p).
Proof.
  unfold pretty, pretty_positive, pretty, pretty_N.
  destruct (decide (Npos p = 0%N)) as [?|_]; [done|].
  destruct (digits_pretty_N_go (Npos p) "") as [k Hk].
  rewrite Hk. simpl. done.
Qed.

(** A string of digits does not start with a sign. *)
Lemma signed_digits s v :
  s ≠ "" → digits 0 s = Some v → signed s = Some v.
Proof.
  destruct s as [|c rest]; [done|]. intros _ Hv. unfold signed.
  assert (Hc : is_Some (digit c)).
  { simpl in Hv. destruct (digit c); [eauto|done]. }
  destruct (Ascii.eqb_spec c "-") as [->|_]; [by destruct Hc|].
  destruct (Ascii.eqb_spec c "+") as [->|_]; [by destruct Hc|].
  by rewrite Hv.
Qed.

Lemma pretty_positive_nonempty (p : positive) : pretty p ≠ "".
Proof.
  intros Hp. pose proof (digits_pretty_positive p) as Hd.
  rewrite Hp in Hd. done.
Qed.

(** [signed] reads the decimal writing of every integer. *)
Lemma signed_pretty (v : Z) : signed (pretty v) = Some v.
Proof.
  destruct v as [|p|p].
  - reflexivity.
  - apply signed_digits;
      [apply pretty_positive_nonempty|apply digits_pretty_positive].
  - change (pretty (Z.neg p)) with (String "-" (pretty p)).
    unfold signed. simpl Ascii.eqb. cbv iota beta.
    pose proof (pretty_positive_nonempty p) as Hne.
    destruct (pretty p) as [|c rest] eqn:Hp; [done|].
    rewrite <-Hp, digits_pretty_positive. done.
Qed.

End strconv_facts.

Lemma readEnvVars_default environ s :
  environ !! envVarK8sClientsPoolSize = Some s →
  (strconv.Atoi s).2 ≠ None ∨ (strconv.Atoi s).1 < 1 →
  (readEnvVars environ).1 = defaultK8sClientsPoolSize ∧
  ∃ msg, (readEnvVars environ).2 = [LogInfo msg].
Proof.
  intros Hs Hbad. unfold readEnvVars. rewrite Hs.
  destruct (strconv.Atoi s) as [value err]. simpl in Hbad.
  destruct (bool_decide (err ≠ None)) eqn:Herr; simpl; [by eauto|].
  apply bool_decide_eq_false in Herr.
  destruct Hbad as [?|Hlt]; [done|].
  destruct (Z.ltb_spec value 1); [by eauto|lia].
Qed.

(** C5, as the code has it: the pool size is 10, with one logged notice,
    when the variable is unset, when its value is not a signed decimal, and
    when the decimal is below 1 or above the largest [int]
    (9223372036854775807); it is the value itself, with nothing logged, for
    every decimal from 1 to the largest [int], in particular for the usual
    decimal writing [pretty v] of such a [v]. *)
Theorem readEnvVars_pool_size (environ : gmap string string) :
  (environ !! envVarK8sClientsPoolSize = None →
   (readEnvVars environ).1 = 10 ∧
   ∃ msg, (readEnvVars environ).2 = [LogInfo msg]) ∧
  (∀ s, environ !! envVarK8sClientsPoolSize = Some s →
        strconv.signed s = None →
        (readEnvVars environ).1 = 10 ∧
        ∃ msg, (readEnvVars environ).2 = [LogInfo msg]) ∧
  (∀ s v, environ !! envVarK8sClientsPoolSize = Some s →
          strconv.signed s = Some v →
          v < 1 ∨ maxInt < v →
          (readEnvVars environ).1 = 10 ∧
          ∃ msg, (readEnvVars environ).2 = [LogInfo msg]) ∧
  (∀ s v, environ !! envVarK8sClientsPoolSize = Some s →
          strconv.signed s = Some v →
          1 ≤ v ≤ maxInt →
          readEnvVars environ = (v, [])) ∧
  (∀ v : Z, environ !! envVarK8sClientsPoolSize = Some (pretty v) →
            1 ≤ v ≤ maxInt →
            readEnvVars environ = (v, [])).
Proof.
  assert (Hvalid : ∀ s v,
    environ !! envVarK8sClientsPoolSize = Some s →
    strconv.signed s = Some v → 1 ≤ v ≤ maxInt →
    readEnvVars environ = (v, [])).
  { intros s v Hs Hv Hrange. unfold readEnvVars, strconv.Atoi.
    rewrite Hs, Hv.
    destruct (Z.leb_spec minInt v); [|unfold minInt in *; lia].
    destruct (Z.leb_spec v maxInt); [|lia]. simpl.
    by destruct (Z.ltb_spec v 1); [lia|]. }
  split_and?.
  - intros Hnone. unfold readEnvVars. rewrite Hnone. simpl. eauto.
  - intros s Hs Hv. apply (readEnvVars_default environ s Hs).
    left. unfold strconv.Atoi. by rewrite Hv.
  - intros s v Hs Hv Hrange. apply (readEnvVars_default environ s Hs).
    unfold strconv.Atoi. rewrite Hv.
    destruct (Z.leb_spec minInt v), (Z.leb_spec v maxInt); simpl;
      try (by left); right; lia.
  - exact Hvalid.
  - intros v Hs Hrange. apply (Hvalid _ v Hs); [|done].
    apply strconv_facts.signed_pretty.
Qed.

Lemma readEnvVars_pool_size_witness :
  readEnvVars ∅ =
    (10, [LogInfo "env variable K8S_CLIENTS_POOL_SIZE not found, using default value 10"]) ∧
  (readEnvVars {[ envVarK8sClientsPoolSize := "abc" ]}).1 = 10 ∧
  (readEnvVars {[ envVarK8sClientsPoolSize := "0" ]}).1 = 10 ∧
  (readEnvVars {[ envVarK8sClientsPoolSize := "-3" ]}).1 = 10 ∧
  readEnvVars {[ envVarK8sClientsPoolSize := "5" ]} = (5, []).
Proof.
  split_and?.
  - reflexivity.
  - apply (proj1 (proj2 (readEnvVars_pool_size
                           {[ envVarK8sClientsPoolSize := "abc" ]})) "abc");
      reflexivity.
  - apply (proj1 (proj2 (proj2 (readEnvVars_pool_size
                           {[ envVarK8sClientsPoolSize := "0" ]}))) "0" 0);
      [reflexivity|reflexivity|lia].
  - apply (proj1 (proj2 (proj2 (readEnvVars_pool_size
                           {[ envVarK8sClientsPoolSize := "-3" ]}))) "-3" (-3));
      [reflexivity|reflexivity|lia].
  - apply (proj1 (proj2 (proj2 (proj2 (readEnvVars_pool_size
                           {[ envVarK8sClientsPoolSize := "5" ]})))) "5" 5);
      [reflexivity|reflexivity|unfold maxInt; lia].
Defined.

(** C5, as the claim has it ("the parsed value for any numeric value >= 1"),
    fails for the decimal 9223372036854775808: [strconv.Atoi] reports a
    range error and the pool size is 10. *)
Lemma readEnvVars_numeric_above_int :
  strconv.signed "9223372036854775808" = Some 9223372036854775808 ∧
  1 ≤ 9223372036854775808 ∧
  readEnvVars {[ envVarK8sClientsPoolSize := "9223372036854775808" ]} =
    (10, [LogInfo "env var K8S_CLIENTS_POOL_SIZE invalid value: 9223372036854775808, using default value 10"]) ∧
  ¬ (∀ v : Z, 1 ≤ v →
       (readEnvVars {[ envVarK8sClientsPoolSize := pretty v ]}).1 = v).
Proof.
  split_and?; [reflexivity|lia|reflexivity|].
  intros Hclaim. specialize (Hclaim 9223372036854775808 ltac:(lia)).
  vm_compute in Hclaim. discriminate.
Qed.

(** * The theorems on the concrete instance *)

Section Instances.
Import Demo.

Lemma Demo_AddK8sWorkerPool :
  AddK8sWorkerPool (W := world) (Ok 0) ∅ None = Ok pool10.
Proof. reflexivity. Qed.

Lemma RunAsync_identity_error_drops_job_witness :
  let σ := run [ASubmit (job "?")] pool2 in
  goroutines (steps 2 0 σ) !! 0%nat = Some {| prog := Ret RVoid; holds := false |} ∧
  logged (steps 2 0 σ) =
    [LogError "unexpected object type" "failed to get user identity from obj" []] ∧
  chans (steps 2 0 σ) = chans σ ∧
  pool (steps 2 0 σ) = pool σ.
Proof.
  intros σ.
  destruct (RunAsync_identity_error_drops_job (W := world) σ 0 (pool pool2) (job "?")
              "unexpected object type" 2)
    as (H1 & H2 & H3 & H4 & _); [reflexivity|reflexivity|lia|].
  split_and?; [exact H1|exact H2|exact H3|exact H4].
Defined.


Lemma RunAsync_impersonate_error_keeps_mutex_witness :
  let σ := run [ASubmit (job "carol")] pool2 in
  goroutines (steps 5 0 σ) !! 0%nat = Some {| prog := Ret RVoid; holds := true |} ∧
  impersonationWorkersLock (pool (steps 5 0 σ)) = true ∧
  logged (steps 5 0 σ) =
    [LogError "failed to impersonate - forbidden" "failed to create user worker"
       ["user"; "carol"]].
Proof.
  intros σ.
  destruct (RunAsync_impersonate_error_keeps_mutex (W := world) σ 0 (pool pool2)
              (job "carol") "carol" "forbidden" 5)
    as (H1 & H2 & H3 & _);
    [reflexivity|reflexivity|discriminate|reflexivity|reflexivity|reflexivity
    |lia|].
  split_and?; [exact H1|exact H2|exact H3].
Defined.

Lemma impersonate_error_blocks_later_submits_witness :
  let σ' := steps 5 0 (run [ASubmit (job "carol")] pool10) in
  let later := run (ASubmit (job "carol") :: ops 5 1) σ' in
  impersonationWorkersLock (pool later) = true ∧
  impersonateCalls later = ["carol"] ∧
  impersonationWorkersQueues (pool later) !! "carol" = None.
Proof.
  intros σ' later.
  destruct (impersonate_error_blocks_later_submits (W := world) (Ok 0) ∅ None pool10
              [ASubmit (job "carol")] 0 (pool pool10) (job "carol")
              "carol" "forbidden" 5)
    as (_ & Hcalls & Hlater);
    [reflexivity|reflexivity|reflexivity|discriminate|reflexivity|reflexivity
    |reflexivity|lia|].
  destruct (Hlater (ASubmit (job "carol") :: ops 5 1)) as (H1 & H2 & H3).
  split_and?; [exact H1| |exact H3].
  etrans; [exact H2|exact Hcalls].
Defined.

Lemma mutex_released_before_send_witness :
  let σ := run (ASubmit (job "alice") :: ops 9 0) pool10 in
  ∃ g, goroutines σ !! 0%nat = Some g ∧
       prog g = Send (Some 1%nat) (job "alice") (Ret RVoid) ∧
       holds g = false.
Proof.
  intros σ.
  exists {| prog := Send (Some 1%nat) (job "alice") (Ret RVoid);
            holds := false |}.
  assert (Hg : goroutines σ !! 0%nat =
    Some {| prog := Send (Some 1%nat) (job "alice") (Ret RVoid);
            holds := false |}) by reflexivity.
  split_and?; [exact Hg|reflexivity|].
  exact (mutex_released_before_send (W := world) (Ok 0) ∅ None pool10
           (ASubmit (job "alice") :: ops 9 0) 0 _ (Some 1%nat) (job "alice")
           (Ret RVoid) Demo_AddK8sWorkerPool Hg eq_refl).
Defined.

Lemma lane_created_at_most_once_witness :
  let σ := run (alice_served ++ ASubmit (job "alice") :: ops 2 1) pool10 in
  (count_occ String.string_dec (lanesCreated σ) "alice" ≤ 1)%nat ∧
  impersonationWorkersQueues (pool (steps 3 1 σ)) =
    impersonationWorkersQueues (pool σ) ∧
  impersonateCalls (steps 3 1 σ) = ["alice"] ∧
  goroutines (steps 3 1 σ) !! 1%nat =
    Some {| prog := Send (Some 1%nat) (job "alice") (Ret RVoid);
            holds := false |}.
Proof.
  intros σ.
  destruct (lane_created_at_most_once (W := world) (Ok 0) ∅ None pool10
              (alice_served ++ ASubmit (job "alice") :: ops 2 1)
              Demo_AddK8sWorkerPool) as (Hcount & Hreuse & _).
  destruct (Hreuse 1%nat (pool pool10) (job "alice") "alice" 1%nat)
    as (Hm & _ & Hc & _ & Hg); [reflexivity|reflexivity|].
  split_and?; [exact (Hcount "alice")|exact Hm|exact Hc|exact Hg].
Defined.

Lemma lane_before_Start_gets_nil_context_witness :
  let σ := run [ASubmit (job "alice")] pool10 in
  started (steps 7 0 σ) =
    [(newK8sWorkerWithClient (W := world) "impersonation-alice" 1 "alice" 1,
      None)].
Proof.
  intros σ.
  destruct (lane_before_Start_gets_nil_context (W := world) (Ok 0) ∅ None pool10
              [ASubmit (job "alice")] Demo_AddK8sWorkerPool)
    as (_ & _ & Hlane); [repeat constructor|].
  destruct (Hlane 0%nat (pool pool10) (job "alice") "alice" "alice")
    as (_ & Hst);
    [reflexivity|reflexivity|discriminate|reflexivity|reflexivity|reflexivity
    |simpl; lia|].
  exact Hst.
Defined.

Lemma Start_spawns_waits_closes_witness :
  let σ := run [AStart 7] pool2 in
  let σ1 := steps 6 0 σ in
  let σ3 := steps 2 0 (exec (ACancel 7) σ1) in
  started σ1 = [default_worker (pool σ) 7 1; default_worker (pool σ) 7 2] ∧
  ctx (pool σ1) = Some 7%nat ∧
  step 0 σ1 = None ∧
  chans σ3 = [{| buf := []; cap := 2; closed := true |}] ∧
  goroutines σ3 !! 0%nat = Some {| prog := Ret RNil; holds := false |} ∧
  goroutines (steps 3 0 (run [AStart 7] pool3_bad)) !! 0%nat =
    Some {| prog := Ret (RError "failed to start k8s workers pool - connection refused");
            holds := false |}.
Proof.
  intros σ σ1 σ3.
  destruct (Start_spawns_waits_closes (W := world) σ 0 (pool pool2) 7)
    as (Hspawn & Hclose & _); [reflexivity|].
  destruct (Hspawn ltac:(unfold maxInt; simpl; lia)) with (n := 6%nat)
    as (Hst & _ & Hctx & _ & _ & Hblocked).
  { intros i Hi. simpl. by destruct (Z.eqb_spec i 0); [lia|]. }
  { simpl. by intros ?%elem_of_nil. }
  { simpl. lia. }
  destruct (Hclose (exec (ACancel 7) σ1) 0%nat
              {| buf := []; cap := 2; closed := false |} 2%nat)
    as (Hchans & Hret);
    [reflexivity|simpl; apply list_elem_of_here|reflexivity|reflexivity|lia|].
  destruct (Start_spawns_waits_closes (W := world)
              (run [AStart 7] pool3_bad) 0 (pool pool3_bad) 7)
    as (_ & _ & Hfail); [reflexivity|].
  split_and?; [exact Hst|exact Hctx|exact Hblocked|exact Hchans|exact Hret|].
  apply (Hfail 2 "connection refused" 3%nat);
    [simpl; lia|unfold maxInt; simpl; lia| |reflexivity|simpl; lia].
  intros j Hj. simpl. by destruct (Z.eqb_spec j 2); [lia|].
Defined.

Lemma Start_error_leaves_workers_running_witness :
  let σ := run [AStart 7] pool3_bad in
  let σ' := steps 3 0 σ in
  chans σ' = [{| buf := []; cap := 3; closed := false |}] ∧
  ctx (pool σ') = None ∧
  started σ' = [default_worker (pool σ) 7 1].
Proof.
  intros σ σ'.
  destruct (Start_error_leaves_workers_running (W := world) σ 0
              (pool pool3_bad) 7 2 "connection refused" 3)
    as (_ & Hchans & Hctx & Hst & _);
    [reflexivity|simpl; lia|unfold maxInt; simpl; lia| |reflexivity|simpl; lia|].
  { intros j Hj. simpl. by destruct (Z.eqb_spec j 2); [lia|]. }
  split_and?; [exact Hchans|exact Hctx|exact Hst].
Defined.

(** Two first-time submissions for alice racing for the mutex: goroutine 0
    wins, goroutine 1 cannot move until the mutex is unlocked and then
    finds the lane; one lane is created and both jobs are on its queue. *)
Example concurrent_first_submissions :
  let σ := run ([ASubmit (job "alice"); ASubmit (job "alice");
                 AStep 0; AStep 1; AStep 0; AStep 1; AStep 1]
                ++ ops 10 0 ++ ops 10 1) pool10 in
  lanesCreated σ = ["alice"] ∧
  impersonateCalls σ = ["alice"] ∧
  impersonationWorkersQueues (pool σ) !! "alice" = Some 1%nat ∧
  buf <$> chans σ !! 1%nat = Some [job "alice"; job "alice"] ∧
  prog <$> goroutines σ = [Ret RVoid; Ret RVoid].
Proof. vm_compute. repeat split. Qed.

(** After the rejected submission for carol, a second one stops at [Lock]
    and cannot move. *)
Example second_submit_blocked :
  let σ := run (ASubmit (job "carol") :: ops 5 0
                ++ ASubmit (job "carol") :: ops 5 1) pool10 in
  prog <$> goroutines σ !! 1%nat =
    Some (Lock (RunAsync_locked (pool pool10) "carol" (job "carol"))) ∧
  step 1 σ = None ∧
  impersonateCalls σ = ["carol"].
Proof. vm_compute. repeat split. Qed.

End Instances.

(** * Further properties of the code *)

(** ** Construction *)

Lemma readEnvVars_bounds (environ : gmap string string) :
  1 ≤ (readEnvVars environ).1 ≤ maxInt.
Proof.
  unfold readEnvVars, strconv.Atoi, defaultK8sClientsPoolSize, maxInt.
  destruct (environ !! envVarK8sClientsPoolSize) as [s|]; simpl; [|lia].
  destruct (strconv.signed s) as [v|]; simpl; [|lia].
  destruct (Z.leb_spec minInt v), (Z.leb_spec v (2 ^ 63 - 1)); simpl; try lia.
  destruct (Z.ltb_spec v 1); simpl; lia.
Qed.

(** X1: whatever the environment holds, the pool size [readEnvVars] returns
    is at least 1 and fits an [int]. *)
Theorem readEnvVars_in_range (environ : gmap string string) :
  1 ≤ (readEnvVars environ).1 ≤ maxInt.
Proof.
  unfold readEnvVars, strconv.Atoi, defaultK8sClientsPoolSize, maxInt.
  destruct (environ !! envVarK8sClientsPoolSize) as [s|]; simpl; [|lia].
  destruct (strconv.signed s) as [v|]; simpl; [|lia].
  destruct (Z.leb_spec minInt v), (Z.leb_spec v (2 ^ 63 - 1)); simpl; try lia.
  destruct (Z.ltb_spec v 1); simpl; lia.
Qed.

Section Construction.
Context `{W : Collaborators}.

(** X2: the pool [AddK8sWorkerPool] returns has a pool size of at least 1,
    read from the environment; its default queue is empty, open and of that
    capacity; it has no lane, an unlocked mutex, a nil context, no worker
    and no goroutine; it logged what [readEnvVars] logged. *)
Theorem AddK8sWorkerPool_pool inClusterConfig environ mgrAdd σ0 :
  AddK8sWorkerPool inClusterConfig environ mgrAdd = Ok σ0 →
  inClusterConfig = Ok (kubeConfig (pool σ0)) ∧
  mgrAdd = None ∧
  poolSize (pool σ0) = (readEnvVars environ).1 ∧
  1 ≤ poolSize (pool σ0) ≤ maxInt ∧
  chans σ0 = [{| buf := []; cap := poolSize (pool σ0); closed := false |}] ∧
  jobsQueue (pool σ0) = 0%nat ∧
  impersonationWorkersQueues (pool σ0) = ∅ ∧
  impersonationWorkersLock (pool σ0) = false ∧
  ctx (pool σ0) = None ∧
  started σ0 = [] ∧
  goroutines σ0 = [] ∧
  logged σ0 = (readEnvVars environ).2.
Proof.
  unfold AddK8sWorkerPool. destruct inClusterConfig as [config|]; [|done].
  pose proof (readEnvVars_bounds environ) as Hrange.
  destruct (readEnvVars environ) as [size lines].
  destruct mgrAdd; [done|]. intros [= <-]. simpl in Hrange. simpl.
  split_and?; try done; apply Hrange.
Qed.


End Construction.

(** ** RunAsync from call to return *)

(** Setters applied one on another are computed innermost first. *)
Ltac state_fields :=
  cbv [lane_added set_chans set_pool set_lock set_ctx set_queues
       set_lanesCreated set_started set_logged set_cancelled
       set_goroutines set_impersonateCalls
       pool chans started logged impersonateCalls lanesCreated cancelled
       goroutines ctx kubeConfig jobsQueue poolSize
       impersonationWorkersQueues impersonationWorkersLock].

Section Submit.
Context `{W : Collaborators}.

Abbreviation lanes σ := (impersonationWorkersQueues (pool σ)).
Abbreviation mutex σ := (impersonationWorkersLock (pool σ)).

Lemma RunAsync_push_ops σ userIdentity job q ch :
  lanes σ !! userIdentity = Some q →
  mutex σ = true →
  chans σ !! q = Some ch →
  closed ch = false →
  Z.of_nat (length (buf ch)) < cap ch →
  exec_ops 3 σ true (RunAsync_push userIdentity job) =
  (set_chans (λ cs, <[q := push job ch]> cs) (set_pool (set_lock false) σ),
   false, Ret RVoid).
Proof.
  intros Hq Hlocked Hch Hopen Hroom. simpl.
  rewrite Hq, Hlocked. simpl. rewrite Hch, Hopen.
  by destruct (Z.ltb_spec (Z.of_nat (length (buf ch))) (cap ch)); [|lia].
Qed.

Lemma RunAsync_ops_new_lane σ p job userIdentity k8sClient :
  GetUserIdentity (obj job) = Ok userIdentity →
  userIdentity ≠ NoUserIdentity →
  mutex σ = false →
  lanes σ !! userIdentity = None →
  Impersonate (length (impersonateCalls σ)) userIdentity = Ok k8sClient →
  1 ≤ poolSize p →
  exec_ops 10 σ false (RunAsync p job) =
  (lane_added σ (poolSize p) userIdentity k8sClient job, false, Ret RVoid).
Proof.
  intros Hid Hne Hfree Hnone Himp Hsize.
  change 10%nat with (2 + (5 + 3))%nat.
  rewrite exec_ops_add, (RunAsync_ops_lock _ _ _ _ Hid Hne Hfree).
  simpl fst; simpl snd.
  rewrite exec_ops_add.
  rewrite (RunAsync_locked_ops_create _ p job userIdentity k8sClient)
    by (done || lia).
  simpl fst; simpl snd.
  erewrite (RunAsync_push_ops _ userIdentity job (length (chans σ))
              {| buf := []; cap := poolSize p; closed := false |}).
  - f_equal. f_equal. destruct σ as [[] ? ? ? ? ? ? ?]. simpl in Hfree.
    subst. state_fields. f_equal.
    rewrite <-(Nat.add_0_r (length chans0)) at 1.
    by rewrite insert_app_r.
  - simpl. apply lookup_insert_eq.
  - done.
  - simpl. by apply list_lookup_middle.
  - done.
  - simpl. lia.
Qed.

(** X4: the first job of an identity, from call to return (mutex free, no
    lane yet, [Impersonate] succeeding, pool size at least 1): [RunAsync]
    calls [Impersonate] once, makes one queue of capacity [poolSize], starts
    worker 1 named after the identity on that queue with the impersonated
    client and the current [pool.ctx], enters the queue in the lane map,
    puts the job on it, and returns with the mutex unlocked. The default
    queue, the other channels and the log are as before. *)
Theorem RunAsync_new_identity σ t p job userIdentity k8sClient n :
  goroutines σ !! t = Some {| prog := RunAsync p job; holds := false |} →
  GetUserIdentity (obj job) = Ok userIdentity →
  userIdentity ≠ NoUserIdentity →
  mutex σ = false →
  lanes σ !! userIdentity = None →
  Impersonate (length (impersonateCalls σ)) userIdentity = Ok k8sClient →
  1 ≤ poolSize p →
  (10 ≤ n)%nat →
  let σ' := steps n t σ in
  goroutines σ' !! t = Some {| prog := Ret RVoid; holds := false |} ∧
  pool σ' =
    set_queues (λ m, <[userIdentity := length (chans σ)]> m) (pool σ) ∧
  chans σ' =
    chans σ ++ [{| buf := [job]; cap := poolSize p; closed := false |}] ∧
  started σ' =
    started σ ++
    [(newK8sWorkerWithClient ("impersonation-" +:+ userIdentity) 1 k8sClient
        (length (chans σ)),
      ctx (pool σ))] ∧
  impersonateCalls σ' = impersonateCalls σ ++ [userIdentity] ∧
  logged σ' = logged σ.
Proof.
  intros Hg Hid Hne Hfree Hnone Himp Hsize Hn σ'.
  pose proof (RunAsync_ops_new_lane σ p job userIdentity k8sClient
                Hid Hne Hfree Hnone Himp Hsize) as Hops.
  apply (exec_ops_ge 10 n) in Hops; [|done|done].
  subst σ'. rewrite (steps_self _ _ _ _ Hg).
  rewrite (steps_exec_ops _ _ _ _ Hg). simpl prog; simpl holds.
  by rewrite Hops.
Qed.

Lemma RunAsync_ops_lane_send σ p job userIdentity q :
  GetUserIdentity (obj job) = Ok userIdentity →
  userIdentity ≠ NoUserIdentity →
  mutex σ = false →
  lanes σ !! userIdentity = Some q →
  exec_ops 5 σ false (RunAsync p job) =
  (set_pool (set_lock false) (set_pool (set_lock true) σ), false,
   Send (Some q) job (Ret RVoid)).
Proof.
  intros Hid Hne Hfree Hq.
  change 5%nat with (2 + 3)%nat.
  rewrite exec_ops_add, (RunAsync_ops_lock _ _ _ _ Hid Hne Hfree).
  simpl fst; simpl snd.
  by rewrite (RunAsync_locked_ops_reuse _ p job userIdentity q).
Qed.

Lemma set_lock_twice σ :
  mutex σ = false →
  set_pool (set_lock false) (set_pool (set_lock true) σ) = σ.
Proof. destruct σ as [[] ? ? ? ? ? ? ?]. simpl. by intros ->. Qed.

Lemma RunAsync_ops_existing_lane σ p job userIdentity q ch :
  GetUserIdentity (obj job) = Ok userIdentity →
  userIdentity ≠ NoUserIdentity →
  mutex σ = false →
  lanes σ !! userIdentity = Some q →
  chans σ !! q = Some ch →
  closed ch = false →
  Z.of_nat (length (buf ch)) < cap ch →
  exec_ops 6 σ false (RunAsync p job) =
  (set_chans (λ cs, <[q := push job ch]> cs) σ, false, Ret RVoid).
Proof.
  intros Hid Hne Hfree Hq Hch Hopen Hroom.
  change 6%nat with (5 + 1)%nat.
  rewrite exec_ops_add, (RunAsync_ops_lane_send _ _ _ _ _ Hid Hne Hfree Hq).
  rewrite set_lock_twice by done. simpl. rewrite Hch, Hopen.
  by destruct (Z.ltb_spec (Z.of_nat (length (buf ch))) (cap ch)); [|lia].
Qed.

(** X5: a job of an identity that has a lane (mutex free, lane queue open
    with room): [RunAsync] appends the job at the tail of that lane's queue
    and returns with the mutex unlocked. It does not call [Impersonate],
    makes no channel, starts no worker and leaves the pool, the log and
    every other channel as they were. *)
Theorem RunAsync_existing_lane σ t p job userIdentity q ch n :
  goroutines σ !! t = Some {| prog := RunAsync p job; holds := false |} →
  GetUserIdentity (obj job) = Ok userIdentity →
  userIdentity ≠ NoUserIdentity →
  mutex σ = false →
  lanes σ !! userIdentity = Some q →
  chans σ !! q = Some ch →
  closed ch = false →
  Z.of_nat (length (buf ch)) < cap ch →
  (6 ≤ n)%nat →
  let σ' := steps n t σ in
  goroutines σ' !! t = Some {| prog := Ret RVoid; holds := false |} ∧
  chans σ' =
    <[q := {| buf := buf ch ++ [job]; cap := cap ch; closed := false |}]>
      (chans σ) ∧
  pool σ' = pool σ ∧
  started σ' = started σ ∧
  impersonateCalls σ' = impersonateCalls σ ∧
  lanesCreated σ' = lanesCreated σ ∧
  logged σ' = logged σ.
Proof.
  intros Hg Hid Hne Hfree Hq Hch Hopen Hroom Hn σ'.
  pose proof (RunAsync_ops_existing_lane σ p job userIdentity q ch
                Hid Hne Hfree Hq Hch Hopen Hroom) as Hops.
  apply (exec_ops_ge 6 n) in Hops; [|done|done].
  subst σ'. rewrite (steps_self _ _ _ _ Hg).
  rewrite (steps_exec_ops _ _ _ _ Hg). simpl prog; simpl holds.
  rewrite Hops. unfold push. by rewrite Hopen.
Qed.

(** X6: a job of an identity whose lane queue is full: [RunAsync] stops at
    the send, with the mutex unlocked again and nothing else changed (the
    job is neither dropped nor queued, no error is logged), and cannot move
    while the queue stays full; in any later state where that queue has
    room, its next operation appends the job and returns. *)
Theorem RunAsync_full_lane_blocks σ t p job userIdentity q ch n :
  goroutines σ !! t = Some {| prog := RunAsync p job; holds := false |} →
  GetUserIdentity (obj job) = Ok userIdentity →
  userIdentity ≠ NoUserIdentity →
  mutex σ = false →
  lanes σ !! userIdentity = Some q →
  chans σ !! q = Some ch →
  closed ch = false →
  cap ch ≤ Z.of_nat (length (buf ch)) →
  (5 ≤ n)%nat →
  let σ' := steps n t σ in
  (goroutines σ' !! t =
     Some {| prog := Send (Some q) job (Ret RVoid); holds := false |} ∧
   step t σ' = None ∧
   pool σ' = pool σ ∧
   chans σ' = chans σ ∧
   started σ' = started σ ∧
   impersonateCalls σ' = impersonateCalls σ ∧
   logged σ' = logged σ) ∧
  (∀ σ2 ch2,
     goroutines σ2 !! t =
       Some {| prog := Send (Some q) job (Ret RVoid); holds := false |} →
     chans σ2 !! q = Some ch2 →
     closed ch2 = false →
     Z.of_nat (length (buf ch2)) < cap ch2 →
     goroutines (steps 1 t σ2) !! t =
       Some {| prog := Ret RVoid; holds := false |} ∧
     chans (steps 1 t σ2) = <[q := push job ch2]> (chans σ2)).
Proof.
  intros Hg Hid Hne Hfree Hq Hch Hopen Hfull Hn σ'.
  pose proof (RunAsync_ops_lane_send σ p job userIdentity q
                Hid Hne Hfree Hq) as Hops.
  rewrite set_lock_twice in Hops by done.
  assert (Hblocked : exec_op σ false (Send (Some q) job (Ret RVoid)) = None).
  { simpl. rewrite Hch, Hopen.
    by destruct (Z.ltb_spec (Z.of_nat (length (buf ch))) (cap ch)); [lia|]. }
  apply (exec_ops_ge 5 n) in Hops; [|done|done].
  assert (Hself : goroutines σ' !! t =
    Some {| prog := Send (Some q) job (Ret RVoid); holds := false |}).
  { subst σ'. rewrite (steps_self _ _ _ _ Hg). simpl prog; simpl holds.
    by rewrite Hops. }
  split.
  - split_and?; try done;
      try (subst σ'; rewrite (steps_exec_ops _ _ _ _ Hg);
           simpl prog; simpl holds; by rewrite Hops).
    unfold step. rewrite Hself. simpl.
    subst σ'. rewrite (steps_exec_ops _ _ _ _ Hg). simpl prog; simpl holds.
    rewrite Hops. simpl. rewrite Hch, Hopen.
    by destruct (Z.ltb_spec (Z.of_nat (length (buf ch))) (cap ch)); [lia|].
  - intros σ2 ch2 Hg2 Hch2 Hopen2 Hroom2.
    rewrite (steps_self _ _ _ _ Hg2), (steps_exec_ops _ _ _ _ Hg2).
    simpl. rewrite Hch2, Hopen2.
    by destruct (Z.ltb_spec (Z.of_nat (length (buf ch2))) (cap ch2)); [|lia].
Qed.

(** X7: a job without identity submitted once the default queue is closed
    ([Start] closes it when its context is cancelled): the send panics, so
    [RunAsync] does not return; nothing is queued and the pool is as
    before. *)
Theorem RunAsync_closed_default_queue_panics σ t p job ch n :
  goroutines σ !! t = Some {| prog := RunAsync p job; holds := false |} →
  GetUserIdentity (obj job) = Ok NoUserIdentity →
  chans σ !! jobsQueue p = Some ch →
  closed ch = true →
  (2 ≤ n)%nat →
  let σ' := steps n t σ in
  goroutines σ' !! t =
    Some {| prog := Panic "send on closed channel"; holds := false |} ∧
  chans σ' = chans σ ∧
  pool σ' = pool σ ∧
  logged σ' = logged σ.
Proof.
  intros Hg Hid Hch Hclosed Hn σ'.
  assert (Hops : exec_ops 2 σ false (RunAsync p job) =
    (σ, false, Panic "send on closed channel")).
  { change 2%nat with (1 + 1)%nat.
    rewrite exec_ops_add, RunAsync_ops_no_identity_1 by done. simpl.
    by rewrite Hch, Hclosed. }
  apply (exec_ops_ge 2 n) in Hops; [|done|done].
  subst σ'. rewrite (steps_self _ _ _ _ Hg).
  rewrite (steps_exec_ops _ _ _ _ Hg). simpl prog; simpl holds.
  by rewrite Hops.
Qed.

(** X8: two calls of [Start] waiting on the same context: once it is
    cancelled, the first closes the default queue and returns nil, and the
    second panics on closing the closed queue. *)
Theorem Start_twice_close_panics σ t1 t2 c q ch :
  t1 ≠ t2 →
  goroutines σ !! t1 =
    Some {| prog := WaitDone c (Close q (Ret RNil)); holds := false |} →
  goroutines σ !! t2 =
    Some {| prog := WaitDone c (Close q (Ret RNil)); holds := false |} →
  c ∈ cancelled σ →
  chans σ !! q = Some ch →
  closed ch = false →
  let σ' := steps 2 t2 (steps 2 t1 σ) in
  goroutines σ' !! t1 = Some {| prog := Ret RNil; holds := false |} ∧
  goroutines σ' !! t2 =
    Some {| prog := Panic "close of closed channel"; holds := false |} ∧
  chans σ' = <[q := close ch]> (chans σ).
Proof.
  intros Hne Hg1 Hg2 Hc Hch Hopen σ'.
  pose proof (Start_wait_ops σ false c q ch Hc Hch Hopen) as Hops1.
  set (σ1 := steps 2 t1 σ).
  assert (Hσ1 : σ1 = set_goroutines
    (λ gs, <[t1 := {| prog := Ret RNil; holds := false |}]> gs)
    (set_chans (λ cs, <[q := close ch]> cs) σ)).
  { subst σ1. rewrite (steps_exec_ops _ _ _ _ Hg1). simpl prog; simpl holds.
    by rewrite Hops1. }
  assert (Hg2' : goroutines σ1 !! t2 =
    Some {| prog := WaitDone c (Close q (Ret RNil)); holds := false |}).
  { subst σ1. by rewrite (steps_other _ _ _ _ _ Hg1). }
  assert (Hops2 : exec_ops 2 σ1 false (WaitDone c (Close q (Ret RNil))) =
    (σ1, false, Panic "close of closed channel")).
  { rewrite Hσ1. simpl. rewrite bool_decide_eq_true_2 by done. simpl.
    rewrite list_lookup_insert_eq by by eapply lookup_lt_Some. done. }
  subst σ'. rewrite (steps_self _ _ _ _ Hg2').
  rewrite (steps_other _ _ _ _ _ Hg2') by done.
  rewrite (steps_exec_ops _ _ _ _ Hg2'). simpl prog; simpl holds.
  rewrite Hops2. simpl. split_and?; [|done|by rewrite Hσ1].
  subst σ1. rewrite (steps_self _ _ _ _ Hg1). simpl prog; simpl holds.
  by rewrite Hops1.
Qed.

(** X9: along every schedule of a pool built by [AddK8sWorkerPool], a
    goroutine about to read or write [impersonationWorkersQueues] holds the
    locked mutex, no two goroutines are about to do so at the same time,
    and an [Unlock] is only ever reached with the mutex locked (it cannot
    be the unlock of an unlocked mutex). *)
Theorem lanes_accessed_under_mutex inClusterConfig environ mgrAdd σ0 sched :
  AddK8sWorkerPool inClusterConfig environ mgrAdd = Ok σ0 →
  let σ := run sched σ0 in
  (∀ t g, goroutines σ !! t = Some g → touches_lanes (prog g) = true →
          holds g = true ∧ mutex σ = true) ∧
  (∀ t1 t2 g1 g2,
     goroutines σ !! t1 = Some g1 → goroutines σ !! t2 = Some g2 →
     touches_lanes (prog g1) = true → touches_lanes (prog g2) = true →
     t1 = t2) ∧
  (∀ t g k, goroutines σ !! t = Some g → prog g = Unlock k →
            holds g = true ∧ mutex σ = true).
Proof.
  intros Hadd σ.
  assert (Hinv : inv σ) by by eapply inv_run, AddK8sWorkerPool_inv.
  assert (Hholds : ∀ t g, goroutines σ !! t = Some g →
            touches_lanes (prog g) = true → holds g = true).
  { intros t g Hg Htouch.
    pose proof (inv_goroutines _ Hinv _ _ Hg) as Hok.
    unfold goroutine_ok in Hok. destruct (holds g); [done|].
    destruct (prog g); try done; inversion Hok. }
  split_and?.
  - intros t g Hg Htouch. split; [by eapply Hholds|].
    eapply (inv_lock _ Hinv); [done|by eapply Hholds].
  - intros t1 t2 g1 g2 Hg1 Hg2 H1 H2.
    eapply (inv_mutex _ Hinv); eauto.
  - intros t g k Hg Hk.
    pose proof (inv_goroutines _ Hinv _ _ Hg) as Hok.
    unfold goroutine_ok in Hok. rewrite Hk in Hok.
    destruct (holds g) eqn:Hh; [|inversion Hok].
    split; [done|]. by eapply (inv_lock _ Hinv).
Qed.

(** X10: two jobs of one new identity submitted one after the other (pool
    size at least 2): the first call creates the lane, the second finds it;
    [Impersonate] is called once, one queue and one worker are added, and
    the queue holds the two jobs in submission order. *)
Theorem RunAsync_twice_same_identity
    σ t1 t2 p job1 job2 userIdentity k8sClient n1 n2 :
  t1 ≠ t2 →
  goroutines σ !! t1 = Some {| prog := RunAsync p job1; holds := false |} →
  goroutines σ !! t2 = Some {| prog := RunAsync p job2; holds := false |} →
  GetUserIdentity (obj job1) = Ok userIdentity →
  GetUserIdentity (obj job2) = Ok userIdentity →
  userIdentity ≠ NoUserIdentity →
  mutex σ = false →
  lanes σ !! userIdentity = None →
  Impersonate (length (impersonateCalls σ)) userIdentity = Ok k8sClient →
  2 ≤ poolSize p →
  (10 ≤ n1)%nat → (6 ≤ n2)%nat →
  let σ' := steps n2 t2 (steps n1 t1 σ) in
  goroutines σ' !! t1 = Some {| prog := Ret RVoid; holds := false |} ∧
  goroutines σ' !! t2 = Some {| prog := Ret RVoid; holds := false |} ∧
  pool σ' =
    set_queues (λ m, <[userIdentity := length (chans σ)]> m) (pool σ) ∧
  chans σ' =
    chans σ ++ [{| buf := [job1; job2]; cap := poolSize p; closed := false |}] ∧
  started σ' =
    started σ ++
    [(newK8sWorkerWithClient ("impersonation-" +:+ userIdentity) 1 k8sClient
        (length (chans σ)),
      ctx (pool σ))] ∧
  impersonateCalls σ' = impersonateCalls σ ++ [userIdentity].
Proof.
  intros Hne Hg1 Hg2 Hid1 Hid2 Hsent Hfree Hnone Himp Hsize Hn1 Hn2 σ'.
  pose proof (RunAsync_ops_new_lane σ p job1 userIdentity k8sClient
                Hid1 Hsent Hfree Hnone Himp ltac:(lia)) as Hops1.
  apply (exec_ops_ge 10 n1) in Hops1; [|done|done].
  set (σ1 := steps n1 t1 σ) in *.
  assert (Hσ1 : σ1 = set_goroutines
    (λ gs, <[t1 := {| prog := Ret RVoid; holds := false |}]> gs)
    (lane_added σ (poolSize p) userIdentity k8sClient job1)).
  { subst σ1. rewrite (steps_exec_ops _ _ _ _ Hg1). simpl prog; simpl holds.
    by rewrite Hops1. }
  assert (Hg2' : goroutines σ1 !! t2 =
    Some {| prog := RunAsync p job2; holds := false |}).
  { subst σ1. by rewrite (steps_other _ _ _ _ _ Hg1). }
  assert (Hg1' : goroutines σ1 !! t1 =
    Some {| prog := Ret RVoid; holds := false |}).
  { subst σ1. rewrite (steps_self _ _ _ _ Hg1). simpl prog; simpl holds.
    by rewrite Hops1. }
  assert (Hfree1 : mutex σ1 = false) by by rewrite Hσ1.
  assert (Hlane1 : lanes σ1 !! userIdentity = Some (length (chans σ))).
  { rewrite Hσ1. apply lookup_insert_eq. }
  assert (Hch1 : chans σ1 !! length (chans σ) =
    Some {| buf := [job1]; cap := poolSize p; closed := false |}).
  { rewrite Hσ1. by apply list_lookup_middle. }
  pose proof (RunAsync_ops_existing_lane σ1 p job2 userIdentity
                (length (chans σ))
                {| buf := [job1]; cap := poolSize p; closed := false |}
                Hid2 Hsent Hfree1 Hlane1 Hch1 eq_refl ltac:(simpl; lia))
    as Hops2.
  apply (exec_ops_ge 6 n2) in Hops2; [|done|done].
  subst σ'. rewrite (steps_self _ _ _ _ Hg2').
  rewrite (steps_other _ _ _ _ _ Hg2') by done.
  rewrite (steps_exec_ops _ _ _ _ Hg2'). simpl prog; simpl holds.
  rewrite Hops2. cbn [fst snd].
  split_and?; [done|done|by rewrite Hσ1| |by rewrite Hσ1|by rewrite Hσ1].
  rewrite Hσ1. cbn [chans set_chans set_goroutines lane_added].
  rewrite <-(Nat.add_0_r (length (chans σ))) at 1.
  by rewrite insert_app_r.
Qed.

End Submit.

(** ** The shape of the pool along every schedule *)

Section Shape.
Context `{W : Collaborators}.

Abbreviation lanes σ := (impersonationWorkersQueues (pool σ)).
Abbreviation mutex σ := (impersonationWorkersLock (pool σ)).

Lemma runs_free_mono size q0 nch nch' p :
  runs_free size q0 nch p → (nch ≤ nch')%nat → runs_free size q0 nch' p.
Proof.
  intros Hp. revert nch'.
  induction Hp as [| | | ? ? ? _ IH | | | ? ? Hk | | | |]; intros nch' Hle;
    eauto with running.
  - constructor; [lia|auto].
  - constructor. intros m nch'' Hle' Hm. apply Hk; [lia|done].
Qed.

Lemma RunAsync_push_runs_held size q0 m nch userIdentity job q :
  m !! userIdentity = Some q → (q < nch)%nat →
  runs_held size q0 m nch NoPending (RunAsync_push userIdentity job).
Proof.
  intros Hq Hlt. unfold RunAsync_push. constructor. rewrite Hq.
  auto with running.
Qed.

Lemma RunAsync_locked_runs_held p m nch userIdentity job :
  (∀ key q, m !! key = Some q → (q < nch)%nat) →
  runs_held (poolSize p) (jobsQueue p) m nch NoPending
    (RunAsync_locked p userIdentity job).
Proof.
  intros Hm. unfold RunAsync_locked. constructor.
  destruct (m !! userIdentity) as [q|] eqn:Hq; simpl.
  - eapply RunAsync_push_runs_held; eauto.
  - unfold createUserWorker. constructor; [done|]. intros [k8sClient|err].
    + constructor. constructor. constructor; [done|done|].
      eapply RunAsync_push_runs_held; [apply lookup_insert_eq|lia].
    + auto with running.
Qed.

Lemma RunAsync_runs_free p nch job :
  (jobsQueue p < nch)%nat →
  runs_free (poolSize p) (jobsQueue p) nch (RunAsync p job).
Proof.
  intros Hq0. unfold RunAsync. constructor. intros [userIdentity|err];
    [|auto with running].
  destruct (String.eqb userIdentity NoUserIdentity); [auto with running|].
  constructor. intros m nch' _ Hm. by apply RunAsync_locked_runs_held.
Qed.

Lemma code_runs_free p nch l :
  runs_free (poolSize p) (jobsQueue p) nch (code p l).
Proof.
  destruct l as [c i]. simpl. unfold Start_loop, Start_wait, newK8sWorker.
  destruct (i <=? poolSize p); [|auto 6 with running].
  destruct (newK8sWorkerError i (kubeConfig p)); [auto with running|].
  constructor; simpl; eauto with running.
Qed.

(** *** One operation *)

Lemma exec_op_runs_free size q0 σ p σ' h' p' :
  runs_free size q0 (length (chans σ)) p →
  poolSize (pool σ) = size →
  jobsQueue (pool σ) = q0 →
  exec_op σ false p = Some (σ', h', p') →
  poolSize (pool σ') = size ∧ jobsQueue (pool σ') = q0 ∧
  lanes σ' = lanes σ ∧
  (chans σ' = chans σ ∨
   (∃ q ch job,
      chans σ !! q = Some ch ∧ closed ch = false ∧
      Z.of_nat (length (buf ch)) < cap ch ∧
      chans σ' = <[q := push job ch]> (chans σ)) ∨
   (∃ ch, chans σ !! q0 = Some ch ∧
          chans σ' = <[q0 := close ch]> (chans σ))) ∧
  (started σ' = started σ ∨
   ∃ w c, started σ' = started σ ++ [(w, c)] ∧ workerQueue w = q0 ∧
          ∃ config, session w = DefaultSession config) ∧
  ((h' = false ∧ runs_free size q0 (length (chans σ)) p') ∨
   (h' = true ∧ mutex σ = false ∧
    ∀ m nch',
      (length (chans σ) ≤ nch')%nat →
      (∀ key q, m !! key = Some q → (q < nch')%nat) →
      runs_held size q0 m nch' NoPending p')).
Proof.
  intros Hp Hsize Hq0 Hop.
  inversion Hp; subst; simpl in Hop; repeat case_match; simplify_eq; simpl;
    split_and?; try done; try (by left);
    try (left; split; [done|]; eauto using code_runs_free with running; done).
  - right. left. eexists _, _, _. split_and?; try done.
    by apply Z.ltb_lt.
  - right. split_and?; eauto.
  - right. eauto 10.
  - right. right. eauto.
Qed.

Lemma exec_op_runs_held size q0 σ pend p σ' h' p' :
  runs_held size q0 (lanes σ) (length (chans σ)) pend p →
  mutex σ = true →
  poolSize (pool σ) = size →
  jobsQueue (pool σ) = q0 →
  exec_op σ true p = Some (σ', h', p') →
  poolSize (pool σ') = size ∧ jobsQueue (pool σ') = q0 ∧
  ((lanes σ' = lanes σ ∧ chans σ' = chans σ ∧ started σ' = started σ ∧
    ((h' = true ∧
      runs_held size q0 (lanes σ) (length (chans σ)) pend p') ∨
     (h' = false ∧ pend = NoPending ∧
      runs_free size q0 (length (chans σ)) p'))) ∨
   (pend = NoPending ∧ lanes σ' = lanes σ ∧ started σ' = started σ ∧
    chans σ' = chans σ ++ [{| buf := []; cap := size; closed := false |}] ∧
    h' = true ∧
    runs_held size q0 (lanes σ) (S (length (chans σ)))
      (Made (length (chans σ))) p') ∨
   (∃ q name k8sClient,
      pend = Made q ∧ lanes σ' = lanes σ ∧ chans σ' = chans σ ∧
      started σ' =
        started σ ++
        [(newK8sWorkerWithClient name 1 k8sClient q, ctx (pool σ))] ∧
      h' = true ∧
      runs_held size q0 (lanes σ) (length (chans σ))
        (Staffed q (newK8sWorkerWithClient name 1 k8sClient q)) p') ∨
   (∃ q w key,
      pend = Staffed q w ∧ lanes σ !! key = None ∧
      logName w = "impersonation-" +:+ key ∧
      lanes σ' = <[key := q]> (lanes σ) ∧ chans σ' = chans σ ∧
      started σ' = started σ ∧ h' = true ∧
      runs_held size q0 (<[key := q]> (lanes σ)) (length (chans σ))
        NoPending p')).
Proof.
  intros Hp Hlocked Hsize Hq0 Hop.
  inversion Hp; subst; simpl in Hop; repeat case_match; simplify_eq; simpl;
    (split; [done|]); (split; [done|]);
    try (left; split_and?; try done; left; split; [done|];
         eauto with running; done).
  - left. split_and?; try done. right. eauto.
  - right. left. split_and?; done.
  - right. right. left. eexists _, _, _. split_and?; done.
  - right. right. right. eexists _, _, _. split_and?; done.
Qed.

(** *** Bookkeeping on channels and workers *)

Lemma lane_workers_started q σ σ' :
  started σ' = started σ → lane_workers q σ' = lane_workers q σ.
Proof. unfold lane_workers. by intros ->. Qed.

Lemma lane_workers_app q σ σ' w c :
  started σ' = started σ ++ [(w, c)] →
  lane_workers q σ' =
  lane_workers q σ ++ (if decide (workerQueue w = q) then [(w, c)] else []).
Proof.
  unfold lane_workers. intros ->. rewrite filter_app. f_equal.
Qed.

Lemma lane_workers_fresh q σ :
  (∀ w c, (w, c) ∈ started σ → (workerQueue w < q)%nat) →
  lane_workers q σ = [].
Proof.
  intros Hlt. unfold lane_workers.
  induction (started σ) as [|[w c] l IH]; [done|].
  rewrite filter_cons. simpl. destruct (decide (workerQueue w = q)) as [Heq|_].
  - pose proof (Hlt w c (list_elem_of_here _ _)). lia.
  - apply IH. intros w' c' Hin. apply (Hlt w' c'). by apply list_elem_of_further.
Qed.

Lemma shape_chans_insert size q0 (cs : list Chan) q1 ch1 :
  (∀ q ch, cs !! q = Some ch →
     cap ch = size ∧ Z.of_nat (length (buf ch)) ≤ Z.max 0 size ∧
     (q ≠ q0 → closed ch = false)) →
  (cap ch1 = size ∧ Z.of_nat (length (buf ch1)) ≤ Z.max 0 size ∧
   (q1 ≠ q0 → closed ch1 = false)) →
  ∀ q ch, <[q1 := ch1]> cs !! q = Some ch →
     cap ch = size ∧ Z.of_nat (length (buf ch)) ≤ Z.max 0 size ∧
     (q ≠ q0 → closed ch = false).
Proof.
  intros Hall H1 q ch [(<- & <- & _)|(_ & Hq)]%list_lookup_insert_Some;
    [done|by eapply Hall].
Qed.

(** A goroutine without the mutex moves. *)
Lemma shape_step_free size q0 σ t g σ1 h1 p1 :
  inv σ →
  shape size q0 σ →
  goroutines σ !! t = Some g →
  holds g = false →
  exec_op σ false (prog g) = Some (σ1, h1, p1) →
  shape size q0
    (set_goroutines (λ gs, <[t := {| prog := p1; holds := h1 |}]> gs) σ1).
Proof.
  intros Hinv Hshape Hg Hh Hop.
  destruct Hshape as [Hsize Hq0 Hdef Hchans Hlanes Hinj Hworkers
                        (pend & Hpend & Hnone & Hgs)].
  pose proof (Hgs _ _ Hg) as Hp. rewrite Hh in Hp.
  pose proof (exec_op_goroutines _ _ _ _ _ _ Hop) as Hgs1.
  destruct (exec_op_runs_free _ _ _ _ _ _ _ Hp Hsize Hq0 Hop)
    as (Hsize1 & Hq01 & Hm1 & Hch1 & Hst1 & Hp1).
  assert (Hlen : length (chans σ1) = length (chans σ)).
  { destruct Hch1 as [->|[(q & ch & job & _ & _ & _ & ->)|(ch & _ & ->)]];
      by rewrite ?length_insert. }
  assert (Hlw : ∀ f q, q ≠ q0 →
    lane_workers q (set_goroutines f σ1) = lane_workers q σ).
  { intros f q Hq. change (lane_workers q σ1 = lane_workers q σ).
    destruct Hst1 as [Hst|(w & c & Hst & Hw & _)].
    - by apply lane_workers_started.
    - rewrite (lane_workers_app q σ σ1 w c Hst).
      destruct (decide (workerQueue w = q)); [congruence|].
      by rewrite app_nil_r. }
  split; simpl.
  - done.
  - done.
  - by rewrite Hlen.
  - destruct Hch1 as [->|[(q & ch & job & Hq & Hopen & Hroom & ->)
                          |(ch & Hq & ->)]]; [done| |].
    + apply shape_chans_insert; [done|].
      destruct (Hchans _ _ Hq) as (Hcap & _ & Hcl).
      unfold push. simpl. rewrite length_app. simpl. split_and?; [done|lia|done].
    + apply shape_chans_insert; [done|].
      destruct (Hchans _ _ Hq) as (Hcap & Hbuf & _). by simpl.
  - intros key q Hkey. rewrite Hm1 in Hkey.
    destruct (Hlanes _ _ Hkey) as (Hlt & Hne & Hw).
    rewrite Hlen, (Hlw _ q Hne). done.
  - rewrite Hm1. apply Hinj.
  - intros w c Hin. rewrite Hlen.
    destruct Hst1 as [Hst|(w' & c' & Hst & Hw' & Hs')]; rewrite Hst in Hin.
    + by apply (Hworkers w c).
    + apply elem_of_app in Hin as [Hin|[= -> ->]%list_elem_of_singleton];
        [by apply (Hworkers w c)|]. split; [lia|]. by left.
  - assert (Hpend1 : pending_ok q0
      (set_goroutines (λ gs, <[t := {| prog := p1; holds := h1 |}]> gs) σ1)
      pend).
    { destruct pend as [|q|q w]; simpl; [done| |];
        destruct Hpend as (? & Hne & ? & ?);
        by rewrite Hlen, Hm1, (Hlw _ q Hne). }
    exists pend. rewrite Hgs1, Hlen, Hm1.
    destruct Hp1 as [(-> & Hfree)|(-> & Hfreelock & Hheld)].
    + split_and?; [done| |].
      * intros Hall. apply Hnone. intros j gj Hgj.
        destruct (decide (j = t)) as [->|Hjt]; [congruence|].
        apply (Hall j). by rewrite list_lookup_insert_ne.
      * intros j gj [(<- & <- & _)|(Hjt & Hgj)]%list_lookup_insert_Some;
          [done|by apply (Hgs j)].
    + assert (Hnobody : ∀ j gj, goroutines σ !! j = Some gj → holds gj = false).
      { intros j gj Hgj. destruct (holds gj) eqn:Hhj; [|done].
        pose proof (inv_lock _ Hinv _ _ Hgj Hhj). congruence. }
      pose proof (Hnone Hnobody) as ->.
      split_and?; [done|done|].
      intros j gj [(<- & <- & _)|(Hjt & Hgj)]%list_lookup_insert_Some.
      * simpl. apply Hheld; [done|]. intros key q Hkey.
        by destruct (Hlanes _ _ Hkey).
      * by apply (Hgs j).
Qed.

(** The goroutine that holds the mutex moves. *)
Lemma shape_step_held size q0 σ t g σ1 h1 p1 :
  inv σ →
  shape size q0 σ →
  goroutines σ !! t = Some g →
  holds g = true →
  exec_op σ true (prog g) = Some (σ1, h1, p1) →
  shape size q0
    (set_goroutines (λ gs, <[t := {| prog := p1; holds := h1 |}]> gs) σ1).
Proof.
  intros Hinv Hshape Hg Hh Hop.
  destruct Hshape as [Hsize Hq0 Hdef Hchans Hlanes Hinj Hworkers
                        (pend & Hpend & Hnone & Hgs)].
  pose proof (Hgs _ _ Hg) as Hp. rewrite Hh in Hp.
  pose proof (exec_op_goroutines _ _ _ _ _ _ Hop) as Hgs1.
  pose proof (inv_lock _ Hinv _ _ Hg Hh) as Hlocked.
  assert (Hothers : ∀ j gj,
    j ≠ t → goroutines σ !! j = Some gj → holds gj = false).
  { intros j gj Hjt Hgj. destruct (holds gj) eqn:Hhj; [|done].
    destruct Hjt. by apply (inv_mutex _ Hinv j t gj g). }
  assert (Ht : (t < length (goroutines σ))%nat) by by eapply lookup_lt_Some.
  assert (Hlw : ∀ f q, started σ1 = started σ →
    lane_workers q (set_goroutines f σ1) = lane_workers q σ).
  { intros f q Hst. by apply lane_workers_started. }
  assert (Hrest : ∀ h' p' j gj,
    <[t := {| prog := p'; holds := h' |}]> (goroutines σ) !! j = Some gj →
    (j = t ∧ gj = {| prog := p'; holds := h' |}) ∨
    (j ≠ t ∧ goroutines σ !! j = Some gj ∧ holds gj = false ∧
     runs_free size q0 (length (chans σ)) (prog gj))).
  { intros h' p' j gj [(<- & <- & _)|(Hjt & Hgj)]%list_lookup_insert_Some;
      [by left|right].
    assert (Hhj : holds gj = false) by (apply (Hothers j); auto).
    pose proof (Hgs _ _ Hgj) as Hpj. rewrite Hhj in Hpj. auto. }
  assert (Hholder : ∀ p' (pend' : Pending),
    (∀ j gj,
       <[t := {| prog := p'; holds := true |}]> (goroutines σ) !! j = Some gj →
       holds gj = false) →
    pend' = NoPending).
  { intros p' pend' Hall.
    assert (holds {| prog := p'; holds := true |} = false); [|done].
    apply (Hall t). apply list_lookup_insert_Some. by left. }
  destruct (exec_op_runs_held _ _ _ _ _ _ _ _ Hp Hlocked Hsize Hq0 Hop)
    as (Hsize1 & Hq01 &
        [(Hm1 & Hch1 & Hst1 & Hp1)
        |[(-> & Hm1 & Hst1 & Hch1 & -> & Hp1)
        |[(q & name & k8sClient & -> & Hm1 & Hch1 & Hst1 & -> & Hp1)
        |(q & w & key & -> & Hfresh & Hname & Hm1 & Hch1 & Hst1 & -> & Hp1)]]]).
  - (* nothing but the goroutine changes *)
    split; simpl; rewrite ?Hm1, ?Hch1, ?Hgs1; try done.
    + intros key q Hkey. rewrite (Hlw _ q Hst1). by apply Hlanes.
    + intros w c. rewrite Hst1. apply (Hworkers w c).
    + destruct Hp1 as [(-> & Hp1)|(-> & -> & Hp1)].
      * exists pend. split_and?.
        -- destruct pend as [|q|q w]; simpl; [done| |];
             rewrite ?Hm1, ?Hch1, (Hlw _ q Hst1); done.
        -- apply Hholder.
        -- intros j gj [(-> & ->)|(_ & _ & -> & Hpj)]%Hrest; done.
      * exists NoPending. split_and?; [done|done|].
        intros j gj [(-> & ->)|(_ & _ & -> & Hpj)]%Hrest; done.
  - (* the queue of a new lane is made *)
    split; simpl; rewrite ?Hm1, ?Hch1, ?Hgs1, ?length_app; simpl; try done.
    + lia.
    + intros q ch [Hq|(Hq & [_ <-]%list_lookup_singleton_Some)]%lookup_app_Some.
      * by apply Hchans.
      * simpl. split_and?; [done|lia|done].
    + intros key q Hkey. rewrite (Hlw _ q Hst1).
      destruct (Hlanes _ _ Hkey) as (? & ? & ?). split_and?; [lia|done|done].
    + intros w c. rewrite Hst1. intros [? ?]%Hworkers. split; [lia|done].
    + exists (Made (length (chans σ))). split_and?.
      * simpl. rewrite Hm1, Hch1, length_app, (Hlw _ _ Hst1). simpl.
        split_and?; [lia|lia| |].
        -- intros key Hkey. destruct (Hlanes _ _ Hkey). lia.
        -- apply lane_workers_fresh. intros w c Hin.
           by destruct (Hworkers _ _ Hin).
      * apply Hholder.
      * intros j gj [(-> & ->)|(_ & _ & -> & Hpj)]%Hrest; simpl.
        -- by rewrite Nat.add_1_r.
        -- eapply runs_free_mono; [done|lia].
  - (* the worker of the new lane is started *)
    destruct Hpend as (Hlt & Hne & Hnew & Hnone').
    assert (Hlw' : ∀ f q', lane_workers q' (set_goroutines f σ1) =
      lane_workers q' σ ++
      if decide (q = q')
      then [(newK8sWorkerWithClient name 1 k8sClient q, ctx (pool σ))]
      else []).
    { intros f q'.
      by rewrite (lane_workers_app q' σ (set_goroutines f σ1) _ _ Hst1). }
    split; simpl; rewrite ?Hm1, ?Hch1, ?Hgs1; try done.
    + intros key q' Hkey. rewrite Hlw'.
      destruct (decide (q = q')) as [<-|_]; [by destruct (Hnew key)|].
      rewrite app_nil_r. by apply Hlanes.
    + intros w c. rewrite Hst1.
      intros [Hin|[= -> ->]%list_elem_of_singleton]%elem_of_app;
        [by apply (Hworkers w c)|].
      simpl. split; [done|]. right. eauto.
    + exists (Staffed q (newK8sWorkerWithClient name 1 k8sClient q)).
      split_and?.
      * simpl. rewrite Hm1, Hch1, Hlw', Hnone', decide_True by done.
        split_and?; eauto.
      * apply Hholder.
      * intros j gj [(-> & ->)|(_ & _ & -> & Hpj)]%Hrest; done.
  - (* the new lane is entered in the map *)
    destruct Hpend as (Hlt & Hne & Hnew & (name & k8sClient & ->) & c & Hw).
    simpl in Hname. subst name.
    split; simpl; rewrite ?Hm1, ?Hch1, ?Hgs1; try done.
    + intros key' q' [(<- & <-)|(_ & Hkey)]%lookup_insert_Some;
        rewrite (Hlw _ _ Hst1); [|by apply Hlanes].
      split_and?; eauto.
    + intros key1 key2 q' [(<- & <-)|(? & Hkey1)]%lookup_insert_Some
        [(<- & ?)|(? & Hkey2)]%lookup_insert_Some; subst; try done.
      * by destruct (Hnew key2).
      * by destruct (Hnew key1).
      * by eapply Hinj.
    + intros w c'. rewrite Hst1. apply (Hworkers w c').
    + exists NoPending. split_and?; [done|done|].
      intros j gj [(-> & ->)|(_ & _ & -> & Hpj)]%Hrest; done.
Qed.

(** *** Along a schedule *)

Lemma shape_step size q0 σ t σ' :
  inv σ → shape size q0 σ → step t σ = Some σ' → shape size q0 σ'.
Proof.
  intros Hinv Hshape. unfold step.
  destruct (goroutines σ !! t) as [g|] eqn:Hg; [simpl|done].
  destruct (exec_op σ (holds g) (prog g)) as [[[σ1 h1] p1]|] eqn:Hop;
    [simpl|done].
  intros [= <-]. destruct (holds g) eqn:Hh.
  - by eapply shape_step_held.
  - by eapply shape_step_free.
Qed.

Lemma shape_go size q0 σ p :
  shape size q0 σ →
  runs_free size q0 (length (chans σ)) p →
  shape size q0 (go p σ).
Proof.
  intros [Hsize Hq0 Hdef Hchans Hlanes Hinj Hworkers
            (pend & Hpend & Hnone & Hgs)] Hp.
  split; try done. exists pend. split_and?.
  - by destruct pend.
  - intros Hall. apply Hnone. intros j gj Hgj. apply (Hall j).
    simpl. by apply lookup_app_l_Some.
  - intros j gj. simpl.
    intros [Hgj|(_ & (_ & <-)%list_lookup_singleton_Some)]%lookup_app_Some;
      [by apply (Hgs j)|done].
Qed.

Lemma shape_worker_receive size q0 σ w :
  shape size q0 σ → shape size q0 (worker_receive w σ).
Proof.
  intros Hshape. unfold worker_receive.
  destruct (started σ !! w) as [[worker c]|]; [|done].
  destruct (chans σ !! workerQueue worker) as [ch|] eqn:Hch; [|done].
  destruct Hshape as [Hsize Hq0 Hdef Hchans Hlanes Hinj Hworkers
                        (pend & Hpend & Hnone & Hgs)].
  split; simpl; rewrite ?length_insert; try done.
  - apply shape_chans_insert; [done|].
    destruct (Hchans _ _ Hch) as (Hcap & Hbuf & Hopen). simpl.
    split_and?; [done| |done].
    destruct (buf ch); simpl in *; lia.
  - exists pend. split_and?; [|done|done].
    destruct pend; simpl; rewrite ?length_insert; done.
Qed.

Lemma shape_exec size q0 σ a :
  inv σ → shape size q0 σ → shape size q0 (exec a σ).
Proof.
  intros Hinv Hshape. destruct a as [job|c|t|w|c]; simpl.
  - apply shape_go; [done|].
    rewrite <-(shape_size _ _ _ Hshape), <-(shape_queue _ _ _ Hshape).
    apply RunAsync_runs_free. rewrite (shape_queue _ _ _ Hshape).
    apply (shape_default _ _ _ Hshape).
  - apply shape_go; [done|]. unfold Start. constructor.
  - destruct (step t σ) as [σ'|] eqn:Hstep; simpl; [|done].
    by eapply shape_step.
  - by apply shape_worker_receive.
  - destruct Hshape as [Hsize Hq0 Hdef Hchans Hlanes Hinj Hworkers
                          (pend & Hpend & Hnone & Hgs)].
    split; try done. exists pend. split_and?; [|done|done]. by destruct pend.
Qed.

Lemma shape_run size q0 sched σ :
  inv σ → shape size q0 σ → shape size q0 (run sched σ).
Proof.
  unfold run. revert σ.
  induction sched as [|a sched IH]; intros σ Hinv Hshape; simpl; [done|].
  apply IH; [by apply inv_exec|by apply shape_exec].
Qed.

Lemma shape_new_pool config size lines :
  shape size 0 (new_pool config size lines).
Proof.
  split; simpl; try done.
  - lia.
  - intros q ch [-> <-]%list_lookup_singleton_Some. simpl.
    split_and?; [done|lia|done].
  - intros w c Hin. by apply elem_of_nil in Hin.
  - by exists NoPending.
Qed.

Lemma AddK8sWorkerPool_shape inClusterConfig environ mgrAdd σ0 sched :
  AddK8sWorkerPool inClusterConfig environ mgrAdd = Ok σ0 →
  inv (run sched σ0) ∧ shape (readEnvVars environ).1 0 (run sched σ0).
Proof.
  intros Hadd.
  assert (Hinv : inv σ0) by by eapply AddK8sWorkerPool_inv.
  split; [by apply inv_run|]. apply shape_run; [done|].
  unfold AddK8sWorkerPool in Hadd.
  destruct inClusterConfig as [config|]; [|done].
  destruct (readEnvVars environ) as [size lines].
  destruct mgrAdd; [done|]. injection Hadd as <-. apply shape_new_pool.
Qed.

(** No operation of the critical section blocks. *)
Lemma runs_held_moves size q0 σ m nch pend p :
  runs_held size q0 m nch pend p →
  mutex σ = true →
  finished p = true ∨ ∃ r, exec_op σ true p = Some r.
Proof.
  intros Hp Hlocked. destruct Hp; simpl; eauto.
  - rewrite Hlocked. eauto.
  - destruct (size <? 0); eauto.
Qed.

(** What the goroutines of a pool of that shape are about to do. *)
Lemma shape_goroutine size q0 σ t g :
  inv σ → shape size q0 σ → goroutines σ !! t = Some g →
  ∃ pend, pending_ok q0 σ pend ∧
    if holds g
    then mutex σ = true ∧
         runs_held size q0 (lanes σ) (length (chans σ)) pend (prog g)
    else runs_free size q0 (length (chans σ)) (prog g).
Proof.
  intros Hinv Hshape Hg.
  destruct (shape_goroutines _ _ _ Hshape) as (pend & Hpend & _ & Hgs).
  exists pend. split; [done|]. pose proof (Hgs _ _ Hg) as Hp.
  destruct (holds g) eqn:Hh; [|done]. split; [|done].
  by eapply (inv_lock _ Hinv).
Qed.

End Shape.

Section Schedules.
Context `{W : Collaborators}.

Abbreviation lanes σ := (impersonationWorkersQueues (pool σ)).
Abbreviation mutex σ := (impersonationWorkersLock (pool σ)).

(** X11: along every schedule of a pool built by [AddK8sWorkerPool], the
    default queue stays channel 0, it is the only channel that is ever
    closed, and the queue of every lane exists and is open: a send on a
    lane's queue never panics. *)
Theorem only_default_queue_closed inClusterConfig environ mgrAdd σ0 sched :
  AddK8sWorkerPool inClusterConfig environ mgrAdd = Ok σ0 →
  let σ := run sched σ0 in
  jobsQueue (pool σ) = 0%nat ∧
  (∀ q ch, chans σ !! q = Some ch → closed ch = true → q = 0%nat) ∧
  (∀ key q, lanes σ !! key = Some q →
     ∃ ch, chans σ !! q = Some ch ∧ closed ch = false).
Proof.
  intros Hadd σ.
  destruct (AddK8sWorkerPool_shape _ _ _ _ sched Hadd) as [_ Hshape].
  fold σ in Hshape. split_and?.
  - apply (shape_queue _ _ _ Hshape).
  - intros q ch Hch Hclosed. destruct (decide (q = 0%nat)) as [|Hne]; [done|].
    destruct (shape_chans _ _ _ Hshape _ _ Hch) as (_ & _ & Hopen).
    rewrite Hopen in Hclosed; done.
  - intros key q Hkey.
    destruct (shape_lanes _ _ _ Hshape _ _ Hkey) as (Hlt & Hne & _).
    destruct (lookup_lt_is_Some_2 _ _ Hlt) as [ch Hch]. exists ch.
    split; [done|]. by apply (shape_chans _ _ _ Hshape _ _ Hch).
Qed.

(** X12: along every schedule the pool size stays the one read from the
    environment; every channel, the default queue and every lane's queue,
    has that capacity, which is at least 1, and never holds more jobs than
    that. *)
Theorem queues_bounded_by_pool_size inClusterConfig environ mgrAdd σ0 sched :
  AddK8sWorkerPool inClusterConfig environ mgrAdd = Ok σ0 →
  let σ := run sched σ0 in
  poolSize (pool σ) = (readEnvVars environ).1 ∧
  ∀ q ch, chans σ !! q = Some ch →
    cap ch = poolSize (pool σ) ∧
    1 ≤ cap ch ≤ maxInt ∧
    Z.of_nat (length (buf ch)) ≤ cap ch.
Proof.
  intros Hadd σ.
  destruct (AddK8sWorkerPool_shape _ _ _ _ sched Hadd) as [_ Hshape].
  fold σ in Hshape. pose proof (readEnvVars_bounds environ) as Hrange.
  pose proof (shape_size _ _ _ Hshape) as Hsize.
  split; [done|]. intros q ch Hch.
  destruct (shape_chans _ _ _ Hshape _ _ Hch) as (Hcap & Hbuf & _).
  rewrite Hsize, Hcap. split_and?; [done|lia|lia|lia].
Qed.

(** X13: along every schedule every lane has a queue of its own, which is
    not the default queue and is shared with no other identity, and exactly
    one worker was started on that queue: worker 1, named after the
    identity, on an impersonating client. *)
Theorem lane_has_one_worker inClusterConfig environ mgrAdd σ0 sched :
  AddK8sWorkerPool inClusterConfig environ mgrAdd = Ok σ0 →
  let σ := run sched σ0 in
  (∀ key q, lanes σ !! key = Some q →
     q ≠ jobsQueue (pool σ) ∧
     ∃ k8sClient c,
       lane_workers q σ =
       [(newK8sWorkerWithClient ("impersonation-" +:+ key) 1 k8sClient q,
         c)]) ∧
  (∀ key1 key2 q,
     lanes σ !! key1 = Some q → lanes σ !! key2 = Some q → key1 = key2).
Proof.
  intros Hadd σ.
  destruct (AddK8sWorkerPool_shape _ _ _ _ sched Hadd) as [_ Hshape].
  fold σ in Hshape. split.
  - intros key q Hkey. rewrite (shape_queue _ _ _ Hshape).
    by destruct (shape_lanes _ _ _ Hshape _ _ Hkey) as (_ & Hne & Hw).
  - apply (shape_inj _ _ _ Hshape).
Qed.


(** X15: along every schedule a goroutine about to call [Impersonate] for
    an identity holds the locked mutex and that identity has no lane: the
    impersonation manager is never asked for an identity that is served. *)
Theorem Impersonate_only_without_lane
    inClusterConfig environ mgrAdd σ0 sched t g userIdentity k :
  AddK8sWorkerPool inClusterConfig environ mgrAdd = Ok σ0 →
  let σ := run sched σ0 in
  goroutines σ !! t = Some g →
  prog g = CallImpersonate userIdentity k →
  holds g = true ∧ mutex σ = true ∧ lanes σ !! userIdentity = None.
Proof.
  intros Hadd σ Hg Hprog.
  destruct (AddK8sWorkerPool_shape _ _ _ _ sched Hadd) as [Hinv Hshape].
  fold σ in Hinv, Hshape.
  destruct (shape_goroutine _ _ _ _ _ Hinv Hshape Hg) as (pend & _ & Hp).
  rewrite Hprog in Hp. destruct (holds g).
  - destruct Hp as [Hlocked Hp]. by inversion Hp.
  - inversion Hp.
Qed.

(** X16: along every schedule a goroutine about to send has released the
    mutex and sends on a channel that exists, never on a nil channel; if
    that channel is not the default queue it is open, so the send does not
    panic. *)
Theorem sends_target_existing_queues
    inClusterConfig environ mgrAdd σ0 sched t g q job k :
  AddK8sWorkerPool inClusterConfig environ mgrAdd = Ok σ0 →
  let σ := run sched σ0 in
  goroutines σ !! t = Some g →
  prog g = Send q job k →
  holds g = false ∧
  ∃ n ch, q = Some n ∧ chans σ !! n = Some ch ∧
          (n ≠ jobsQueue (pool σ) → closed ch = false).
Proof.
  intros Hadd σ Hg Hprog.
  destruct (AddK8sWorkerPool_shape _ _ _ _ sched Hadd) as [Hinv Hshape].
  fold σ in Hinv, Hshape.
  destruct (shape_goroutine _ _ _ _ _ Hinv Hshape Hg) as (pend & _ & Hp).
  rewrite Hprog in Hp. destruct (holds g).
  - destruct Hp as [_ Hp]. inversion Hp.
  - split; [done|]. inversion Hp as [| | | | |? n ? ? Hlt| | | | |]; subst.
    destruct (lookup_lt_is_Some_2 _ _ Hlt) as [ch Hch].
    exists n, ch. split_and?; [done|done|].
    rewrite (shape_queue _ _ _ Hshape).
    by apply (shape_chans _ _ _ Hshape _ _ Hch).
Qed.

(** X17: along every schedule a goroutine about to enter a lane in the map
    holds the locked mutex; the identity has no lane yet, and the queue it
    enters exists, is not the default queue, is the queue of no lane, and
    has exactly one worker: worker 1 of that identity on an impersonating
    client. *)
Theorem lane_entered_complete
    inClusterConfig environ mgrAdd σ0 sched t g key q k :
  AddK8sWorkerPool inClusterConfig environ mgrAdd = Ok σ0 →
  let σ := run sched σ0 in
  goroutines σ !! t = Some g →
  prog g = MapInsert key q k →
  holds g = true ∧ mutex σ = true ∧
  lanes σ !! key = None ∧
  (∀ key', lanes σ !! key' ≠ Some q) ∧
  q ≠ jobsQueue (pool σ) ∧
  (∃ ch, chans σ !! q = Some ch ∧ closed ch = false) ∧
  ∃ k8sClient c,
    lane_workers q σ =
    [(newK8sWorkerWithClient ("impersonation-" +:+ key) 1 k8sClient q, c)].
Proof.
  intros Hadd σ Hg Hprog.
  destruct (AddK8sWorkerPool_shape _ _ _ _ sched Hadd) as [Hinv Hshape].
  fold σ in Hinv, Hshape.
  destruct (shape_goroutine _ _ _ _ _ Hinv Hshape Hg) as (pend & Hpend & Hp).
  rewrite Hprog in Hp. destruct (holds g); [|inversion Hp].
  destruct Hp as [Hlocked Hp].
  inversion Hp as [| | | | | | | | |? ? ? w ? ? Hnone Hname Hk]; subst.
  destruct Hpend as (Hlt & Hne & Hnew & (name & k8sClient & ->) & c & Hw).
  simpl in Hname. subst name.
  rewrite (shape_queue _ _ _ Hshape). split_and?; try done.
  - destruct (lookup_lt_is_Some_2 _ _ Hlt) as [ch Hch]. exists ch.
    split; [done|]. by apply (shape_chans _ _ _ Hshape _ _ Hch).
  - eauto.
Qed.

(** X18: along every schedule the goroutine that holds the mutex is never
    blocked: either it has returned or died with the mutex (the failed
    [createUserWorker] path), or its next operation can be performed in the
    current state. Nothing in the critical section waits for a channel. *)
Theorem mutex_holder_never_blocks
    inClusterConfig environ mgrAdd σ0 sched t g :
  AddK8sWorkerPool inClusterConfig environ mgrAdd = Ok σ0 →
  let σ := run sched σ0 in
  goroutines σ !! t = Some g →
  holds g = true →
  finished (prog g) = true ∨ ∃ σ', step t σ = Some σ'.
Proof.
  intros Hadd σ Hg Hh.
  destruct (AddK8sWorkerPool_shape _ _ _ _ sched Hadd) as [Hinv Hshape].
  fold σ in Hinv, Hshape.
  destruct (shape_goroutine _ _ _ _ _ Hinv Hshape Hg) as (pend & _ & Hp).
  rewrite Hh in Hp. destruct Hp as [Hlocked Hp].
  destruct (runs_held_moves _ _ σ _ _ _ _ Hp Hlocked)
    as [Hdone|([[σ1 h1] p1] & Hop)]; [by left|right].
  unfold step. rewrite Hg. simpl. rewrite Hh, Hop. simpl. eauto.
Qed.

End Schedules.

(** ** The further properties on the concrete instance *)

Section FurtherInstances.
Import Demo.

Lemma Demo_AddK8sWorkerPool_size2 :
  AddK8sWorkerPool (W := world) (Ok 0)
    {[ envVarK8sClientsPoolSize := "2" ]} None = Ok pool2.
Proof. by vm_compute. Qed.

Lemma AddK8sWorkerPool_pool_witness :
  poolSize (pool pool10) = 10 ∧
  chans pool10 = [{| buf := []; cap := 10; closed := false |}] ∧
  impersonationWorkersLock (pool pool10) = false.
Proof.
  destruct (AddK8sWorkerPool_pool (W := world) (Ok 0) ∅ None pool10
              Demo_AddK8sWorkerPool)
    as (_ & _ & Hsize & _ & Hchans & _ & _ & Hlock & _).
  split_and?; [exact Hsize|exact Hchans|exact Hlock].
Defined.


Lemma RunAsync_new_identity_witness :
  let σ := run [ASubmit (job "alice")] pool10 in
  goroutines (steps 10 0 σ) !! 0%nat =
    Some {| prog := Ret RVoid; holds := false |} ∧
  chans (steps 10 0 σ) =
    [{| buf := []; cap := 10; closed := false |};
     {| buf := [job "alice"]; cap := 10; closed := false |}] ∧
  impersonateCalls (steps 10 0 σ) = ["alice"].
Proof.
  intros σ.
  destruct (RunAsync_new_identity (W := world) σ 0 (pool pool10)
              (job "alice") "alice" "alice" 10)
    as (Hg & _ & Hch & _ & Hcalls & _);
    [reflexivity|reflexivity|discriminate|reflexivity|reflexivity
    |reflexivity|by vm_compute|lia|].
  split_and?; [exact Hg|exact Hch|exact Hcalls].
Defined.

Lemma RunAsync_existing_lane_witness :
  let σ := run (alice_served ++ [ASubmit (job "alice")]) pool10 in
  goroutines (steps 6 1 σ) !! 1%nat =
    Some {| prog := Ret RVoid; holds := false |} ∧
  chans (steps 6 1 σ) =
    [{| buf := []; cap := 10; closed := false |};
     {| buf := [job "alice"; job "alice"]; cap := 10; closed := false |}] ∧
  impersonateCalls (steps 6 1 σ) = ["alice"].
Proof.
  intros σ.
  destruct (RunAsync_existing_lane (W := world) σ 1 (pool pool10)
              (job "alice") "alice" 1
              {| buf := [job "alice"]; cap := 10; closed := false |} 6)
    as (Hg & Hch & _ & _ & Hcalls & _);
    [reflexivity|reflexivity|discriminate|reflexivity|reflexivity
    |reflexivity|reflexivity|by vm_compute|lia|].
  split_and?; [exact Hg|exact Hch|exact Hcalls].
Defined.

Lemma RunAsync_full_lane_blocks_witness :
  let σ := run (alice_served ++ ASubmit (job "alice") :: ops 6 1 ++
                [ASubmit (job "alice")]) pool2 in
  goroutines (steps 5 2 σ) !! 2%nat =
    Some {| prog := Send (Some 1%nat) (job "alice") (Ret RVoid);
            holds := false |} ∧
  step 2 (steps 5 2 σ) = None ∧
  chans (steps 5 2 σ) = chans σ ∧
  goroutines (steps 1 2 (exec (AReceive 0) (steps 5 2 σ))) !! 2%nat =
    Some {| prog := Ret RVoid; holds := false |}.
Proof.
  intros σ.
  destruct (RunAsync_full_lane_blocks (W := world) σ 2 (pool pool2)
              (job "alice") "alice" 1
              {| buf := [job "alice"; job "alice"]; cap := 2;
                 closed := false |} 5)
    as ((Hg & Hblocked & _ & Hch & _) & Hlater);
    [reflexivity|reflexivity|discriminate|reflexivity|reflexivity
    |reflexivity|reflexivity|by vm_compute|lia|].
  destruct (Hlater (exec (AReceive 0) (steps 5 2 σ))
              {| buf := [job "alice"]; cap := 2; closed := false |})
    as (Hret & _); [reflexivity|reflexivity|reflexivity|by vm_compute|].
  split_and?; [exact Hg|exact Hblocked|exact Hch|exact Hret].
Defined.

Lemma RunAsync_closed_default_queue_panics_witness :
  let σ := run (AStart 0 :: ops 6 0 ++ ACancel 0 :: ops 2 0 ++
                [ASubmit (job "")]) pool2 in
  goroutines (steps 2 1 σ) !! 1%nat =
    Some {| prog := Panic "send on closed channel"; holds := false |} ∧
  chans (steps 2 1 σ) = [{| buf := []; cap := 2; closed := true |}].
Proof.
  intros σ.
  destruct (RunAsync_closed_default_queue_panics (W := world) σ 1
              (pool pool2) (job "")
              {| buf := []; cap := 2; closed := true |} 2)
    as (Hg & Hch & _); [reflexivity|reflexivity|reflexivity|reflexivity|lia|].
  split; [exact Hg|exact Hch].
Defined.

Lemma Start_twice_close_panics_witness :
  let σ := run (AStart 0 :: AStart 0 :: ops 6 0 ++ ops 6 1 ++ [ACancel 0])
             pool2 in
  let σ' := steps 2 1 (steps 2 0 σ) in
  goroutines σ' !! 0%nat = Some {| prog := Ret RNil; holds := false |} ∧
  goroutines σ' !! 1%nat =
    Some {| prog := Panic "close of closed channel"; holds := false |} ∧
  chans σ' = [{| buf := []; cap := 2; closed := true |}].
Proof.
  intros σ σ'.
  destruct (Start_twice_close_panics (W := world) σ 0 1 0 0
              {| buf := []; cap := 2; closed := false |})
    as (Hg1 & Hg2 & Hch);
    [discriminate|reflexivity|reflexivity|exact (list_elem_of_here _ _)
    |reflexivity|reflexivity|].
  split_and?; [exact Hg1|exact Hg2|exact Hch].
Defined.

Lemma lanes_accessed_under_mutex_witness :
  let σ := run (ASubmit (job "alice") :: ops 6 0) pool10 in
  goroutines σ !! 0%nat =
    Some {| prog := MapInsert "alice" 1 (RunAsync_push "alice" (job "alice"));
            holds := true |} ∧
  impersonationWorkersLock (pool σ) = true.
Proof.
  intros σ.
  assert (Hg : goroutines σ !! 0%nat =
    Some {| prog := MapInsert "alice" 1 (RunAsync_push "alice" (job "alice"));
            holds := true |}) by reflexivity.
  split; [exact Hg|].
  destruct (lanes_accessed_under_mutex (W := world) (Ok 0) ∅ None pool10
              (ASubmit (job "alice") :: ops 6 0) Demo_AddK8sWorkerPool)
    as (Hheld & _).
  exact (proj2 (Hheld 0%nat _ Hg eq_refl)).
Defined.

Lemma RunAsync_twice_same_identity_witness :
  let σ := run [ASubmit (job "alice"); ASubmit (job "alice")] pool10 in
  let σ' := steps 6 1 (steps 10 0 σ) in
  goroutines σ' !! 0%nat = Some {| prog := Ret RVoid; holds := false |} ∧
  goroutines σ' !! 1%nat = Some {| prog := Ret RVoid; holds := false |} ∧
  chans σ' =
    [{| buf := []; cap := 10; closed := false |};
     {| buf := [job "alice"; job "alice"]; cap := 10; closed := false |}] ∧
  impersonateCalls σ' = ["alice"].
Proof.
  intros σ σ'.
  destruct (RunAsync_twice_same_identity (W := world) σ 0 1 (pool pool10)
              (job "alice") (job "alice") "alice" "alice" 10 6)
    as (Hg1 & Hg2 & _ & Hch & _ & Hcalls);
    [discriminate|reflexivity|reflexivity|reflexivity|reflexivity
    |discriminate|reflexivity|reflexivity|reflexivity|by vm_compute|lia|lia|].
  split_and?; [exact Hg1|exact Hg2|exact Hch|exact Hcalls].
Defined.

Lemma only_default_queue_closed_witness :
  let σ := run (AStart 0 :: ops 6 0 ++ ACancel 0 :: ops 2 0 ++
                ASubmit (job "alice") :: ops 10 1)
             pool2 in
  chans σ !! 0%nat = Some {| buf := []; cap := 2; closed := true |} ∧
  jobsQueue (pool σ) = 0%nat ∧
  ∃ ch, chans σ !! 1%nat = Some ch ∧ closed ch = false.
Proof.
  intros σ.
  destruct (only_default_queue_closed (W := world) (Ok 0)
              {[ envVarK8sClientsPoolSize := "2" ]} None pool2
              (AStart 0 :: ops 6 0 ++ ACancel 0 :: ops 2 0 ++
                ASubmit (job "alice") :: ops 10 1)
              Demo_AddK8sWorkerPool_size2)
    as (Hq & _ & Hlane).
  split_and?; [reflexivity|exact Hq|exact (Hlane "alice" 1%nat eq_refl)].
Defined.

Lemma queues_bounded_by_pool_size_witness :
  let σ := run alice_served pool10 in
  poolSize (pool σ) = 10 ∧
  ∀ q ch, chans σ !! q = Some ch →
    cap ch = poolSize (pool σ) ∧
    1 ≤ cap ch ≤ maxInt ∧
    Z.of_nat (length (buf ch)) ≤ cap ch.
Proof.
  exact (queues_bounded_by_pool_size (W := world) (Ok 0) ∅ None pool10
           alice_served Demo_AddK8sWorkerPool).
Defined.

Lemma lane_has_one_worker_witness :
  let σ := run alice_served pool10 in
  ∃ k8sClient c,
    lane_workers 1 σ =
    [(newK8sWorkerWithClient (W := world) "impersonation-alice" 1 k8sClient 1,
      c)].
Proof.
  intros σ.
  destruct (lane_has_one_worker (W := world) (Ok 0) ∅ None pool10
              alice_served Demo_AddK8sWorkerPool) as (Hlane & _).
  exact (proj2 (Hlane "alice" 1%nat eq_refl)).
Defined.


Lemma Impersonate_only_without_lane_witness :
  let σ := run (ASubmit (job "alice") :: ops 3 0) pool10 in
  ∃ g, goroutines σ !! 0%nat = Some g ∧
       holds g = true ∧ impersonationWorkersLock (pool σ) = true ∧
       impersonationWorkersQueues (pool σ) !! "alice" = None.
Proof.
  intros σ. eexists. split; [reflexivity|].
  exact (Impersonate_only_without_lane (W := world) (Ok 0) ∅ None pool10
           (ASubmit (job "alice") :: ops 3 0) 0 _ "alice" _
           Demo_AddK8sWorkerPool eq_refl eq_refl).
Defined.

Lemma sends_target_existing_queues_witness :
  let σ := run (ASubmit (job "alice") :: ops 9 0) pool10 in
  ∃ g, goroutines σ !! 0%nat = Some g ∧
       holds g = false ∧
       ∃ n ch, Some 1%nat = Some n ∧ chans σ !! n = Some ch ∧
               (n ≠ jobsQueue (pool σ) → closed ch = false).
Proof.
  intros σ.
  exists {| prog := Send (Some 1%nat) (job "alice") (Ret RVoid);
            holds := false |}.
  assert (Hg : goroutines σ !! 0%nat =
    Some {| prog := Send (Some 1%nat) (job "alice") (Ret RVoid);
            holds := false |}) by reflexivity.
  split; [exact Hg|].
  exact (sends_target_existing_queues (W := world) (Ok 0) ∅ None pool10
           (ASubmit (job "alice") :: ops 9 0) 0 _ (Some 1%nat) (job "alice")
           (Ret RVoid) Demo_AddK8sWorkerPool Hg eq_refl).
Defined.

Lemma lane_entered_complete_witness :
  let σ := run (ASubmit (job "alice") :: ops 6 0) pool10 in
  impersonationWorkersQueues (pool σ) !! "alice" = None ∧
  (∃ ch, chans σ !! 1%nat = Some ch ∧ closed ch = false) ∧
  ∃ k8sClient c,
    lane_workers 1 σ =
    [(newK8sWorkerWithClient (W := world) "impersonation-alice" 1 k8sClient 1,
      c)].
Proof.
  intros σ.
  assert (Hg : goroutines σ !! 0%nat =
    Some {| prog := MapInsert "alice" 1 (RunAsync_push "alice" (job "alice"));
            holds := true |}) by reflexivity.
  destruct (lane_entered_complete (W := world) (Ok 0) ∅ None pool10
              (ASubmit (job "alice") :: ops 6 0) 0 _ "alice" 1%nat _
              Demo_AddK8sWorkerPool Hg eq_refl)
    as (_ & _ & Hnone & _ & _ & Hch & Hw).
  split_and?; [exact Hnone|exact Hch|exact Hw].
Defined.

Lemma mutex_holder_never_blocks_witness :
  let σ := run (ASubmit (job "alice") :: ops 6 0) pool10 in
  finished (MapInsert "alice" 1 (RunAsync_push "alice" (job "alice"))) = true ∨
  ∃ σ', step 0 σ = Some σ'.
Proof.
  intros σ.
  assert (Hg : goroutines σ !! 0%nat =
    Some {| prog := MapInsert "alice" 1 (RunAsync_push "alice" (job "alice"));
            holds := true |}) by reflexivity.
  exact (mutex_holder_never_blocks (W := world) (Ok 0) ∅ None pool10
           (ASubmit (job "alice") :: ops 6 0) 0 _ Demo_AddK8sWorkerPool Hg
           eq_refl).
Defined.

End FurtherInstances.
